(** * LiveKit / Gemini Live bridge: a shallow embedding and its properties

    The development follows the two source files of the repository:

    - [app/src/index.ts]: the WebSocket bridge between a browser connection
      (the downstream side, [client]) and the speech service (the upstream
      side, [geminiWs]);
    - the single-page client: playback scheduling ([playGeminiAudio],
      [stopGeminiPlayback]), base64/PCM16 conversion ([decodeBase64ToInt16],
      [int16ToBase64]) and the capture resampler ([downsampleTo16k]).

    Definitions come first, one module per part of the source; the theorems
    follow. *)

From Stdlib Require Import ZArith QArith Qround List String Ascii Bool Lia Lqa.
Import ListNotations.

Local Open Scope Z_scope.

(* ===================================================================== *)
(** ** JSON values as [JSON.parse] returns them *)
(* ===================================================================== *)

Module Json.

#[local] Set Warnings "-register-all".

Inductive value : Type :=
| JNull
| JBool (b : bool)
| JNum (q : Q)
| JStr (s : string)
| JArr (items : list value)
| JObj (fields : list (string * value)).

(** The fields are kept in the order of the text; when a key is repeated
    [JSON.parse] keeps the last occurrence. *)
Fixpoint assoc_last (k : string) (fs : list (string * value)) : option value :=
  match fs with
  | [] => None
  | (k', v) :: rest =>
      match assoc_last k rest with
      | Some w => Some w
      | None => if String.eqb k k' then Some v else None
      end
  end.

(** [prop v k] is the JavaScript expression [v.k] for the keys the bridge
    reads ([type], [data], [mimeType], [setupComplete]); [None] is
    [undefined].  None of these keys exists on an array, a string, a number
    or a boolean, nor on [Object.prototype]. *)
Definition prop (v : value) (k : string) : option value :=
  match v with
  | JObj fs => assoc_last k fs
  | _ => None
  end.

(** [Object.prototype.hasOwnProperty.call(v, k)] for the same keys. *)
Definition hasOwnProperty (v : value) (k : string) : bool :=
  match prop v k with Some _ => true | None => false end.

(** JavaScript truthiness ([!v] is [negb (truthy v)]). *)
Definition truthy (v : value) : bool :=
  match v with
  | JNull => false
  | JBool b => b
  | JNum q => negb (Qeq_bool q 0)
  | JStr s => negb (String.eqb s EmptyString)
  | JArr _ => true
  | JObj _ => true
  end.

Definition truthy_opt (o : option value) : bool :=
  match o with Some v => truthy v | None => false end.

(** [o ?? d]: the default replaces [undefined] and [null] only. *)
Definition nullish_or (o : option value) (d : value) : value :=
  match o with
  | None | Some JNull => d
  | Some v => v
  end.

(** [v === "s"]. *)
Definition is_string (v : value) (s : string) : bool :=
  match v with
  | JStr t => String.eqb t s
  | _ => false
  end.

End Json.

(* ===================================================================== *)
(** ** The server-side bridge ([app/src/index.ts]) *)
(* ===================================================================== *)

Module Bridge.
Import Json.

(** The environment read once at start-up. *)
Record Config : Type := {
  geminiModel : string;
  enableGeminiBridge : bool;
  geminiApiKey : string;
  geminiWsEndpoint : string;
  vadStartSensitivity : string;
  vadEndSensitivity : string;
  vadPrefixPaddingMs : Q;
  vadSilenceDurationMs : Q
}.

(** [readyState] of a [ws] socket. *)
Inductive ReadyState : Type := CONNECTING | OPEN | CLOSING | CLOSED.

Definition ReadyState_eqb (a b : ReadyState) : bool :=
  match a, b with
  | CONNECTING, CONNECTING | OPEN, OPEN | CLOSING, CLOSING | CLOSED, CLOSED => true
  | _, _ => false
  end.

(** [model.startsWith("models/") ? model : `models/${model}`] *)
Definition normalizeModelName (model : string) : string :=
  if String.prefix "models/" model then model else ("models/" ++ model)%string.

Record Setup : Type := {
  setup_model : string;
  setup_responseModalities : list string;
  setup_disabled : bool;
  setup_startOfSpeechSensitivity : string;
  setup_endOfSpeechSensitivity : string;
  setup_prefixPaddingMs : Q;
  setup_silenceDurationMs : Q
}.

Definition buildGeminiSetup (cfg : Config) : Setup :=
  {| setup_model := normalizeModelName (geminiModel cfg);
     setup_responseModalities := ["AUDIO"%string];
     setup_disabled := false;
     setup_startOfSpeechSensitivity := vadStartSensitivity cfg;
     setup_endOfSpeechSensitivity := vadEndSensitivity cfg;
     setup_prefixPaddingMs := vadPrefixPaddingMs cfg;
     setup_silenceDurationMs := vadSilenceDurationMs cfg |}.

(** Frames the bridge sends to the browser.  [DUnknownType t] is the frame
    [{type:"error", message:`Unknown message type: ${t}`}], kept with the
    interpolated value instead of its string conversion. *)
Inductive DownFrame : Type :=
| DError (message : string)
| DUnknownType (type : value)
| DPong
| DStatus (status : string) (detail : option (Z * string))
| DReady
| DGemini (message : value).

(** Frames the bridge sends to the speech service. *)
Inductive UpFrame : Type :=
| USetup (s : Setup)
| URealtimeAudio (data mimeType : value)
| UAudioStreamEnd
| UClientContent (turns : value) (turnComplete : bool).

(** What a handler does to the two sockets, in program order. *)
Inductive Action : Type :=
| SendDown (f : DownFrame)               (* sendJson(client, f) *)
| SendUp (f : UpFrame)                   (* sendJson(geminiWs, f) *)
| CloseDown (code : Z) (reason : string) (* client.close(code, reason) *)
| ConnectUp (url : string)               (* new WebSocket(url) *)
| CloseUp (code : Z) (reason : string)   (* geminiWs.close(code, reason) *)
| TerminateUp.                           (* geminiWs.terminate() *)

(** The payload of a message event: text that [JSON.parse] rejects, or the
    value it returns. *)
Inductive RawData : Type :=
| Malformed
| Text (v : value).

Definition parseJson (data : RawData) : option value :=
  match data with
  | Malformed => None
  | Text v => Some v
  end.

(** *** The handlers registered by [wss.on("connection")] *)

Definition on_upstream_open (cfg : Config) : list Action :=
  [ SendUp (USetup (buildGeminiSetup cfg));
    SendDown (DStatus "gemini_connected" None) ].

Definition on_upstream_message (data : RawData) : list Action :=
  match parseJson data with
  | None => []
  | Some message =>
      if negb (truthy message) then []
      else
        (if hasOwnProperty message "setupComplete" then [SendDown DReady] else [])
        ++ [SendDown (DGemini message)]
  end.

Definition on_upstream_close (code : Z) (reason : string) : list Action :=
  [ SendDown (DStatus "gemini_closed" (Some (code, reason)));
    CloseDown 1011 "Gemini upstream closed" ].

Definition on_upstream_error : list Action :=
  [ SendDown (DError "Gemini upstream error.") ].

(** [client.on("message")]; [rs] is [geminiWs.readyState] when it runs. *)
Definition invalid_client_message : list Action :=
  [SendDown (DError "Invalid client message.")].

Definition on_client_message (rs : ReadyState) (data : RawData) : list Action :=
  match parseJson data with
  | None => invalid_client_message
  | Some message =>
      if negb (truthy message) then invalid_client_message
      else
        match prop message "type" with
        | None => invalid_client_message
        | Some type =>
            if negb (truthy type) then invalid_client_message
            else if is_string type "ping" then
              [SendDown DPong]
            else if negb (ReadyState_eqb rs OPEN) then
              [SendDown (DError "Gemini upstream not ready.")]
            else if is_string type "audio" then
              match prop message "data" with
              | Some d =>
                  if negb (truthy d) then
                    [SendDown (DError "audio data missing.")]
                  else
                    [SendUp (URealtimeAudio d
                               (nullish_or (prop message "mimeType")
                                           (JStr "audio/pcm;rate=16000")))]
              | None => [SendDown (DError "audio data missing.")]
              end
            else if is_string type "audioStreamEnd" then
              [SendUp UAudioStreamEnd]
            else if is_string type "text" then
              [SendUp (UClientContent
                         (nullish_or (prop message "data") (JStr "")) true)]
            else
              [SendDown (DUnknownType type)]
        end
  end.

Definition on_client_close (rs : ReadyState) : list Action :=
  if ReadyState_eqb rs OPEN then [CloseUp 1000 "Client disconnected"]
  else [TerminateUp].

(** *** Sessions

    [upstream] is [None] when the connection handler returned before
    creating [geminiWs] (no handler is registered then); otherwise it is
    [geminiWs.readyState].  [downstream] is [client.readyState]. *)
Record Session : Type := {
  upstream : option ReadyState;
  downstream : ReadyState
}.

(** [wss.on("connection")] up to the registration of the handlers. *)
Definition connection (cfg : Config) : Session * list Action :=
  if negb (enableGeminiBridge cfg) then
    ({| upstream := None; downstream := CLOSING |},
     [ SendDown (DError "Gemini bridge is disabled.");
       CloseDown 1013 "Gemini bridge disabled" ])
  else if String.eqb (geminiApiKey cfg) EmptyString then
    ({| upstream := None; downstream := CLOSING |},
     [ SendDown (DError "GEMINI_API_KEY is not configured.");
       CloseDown 1013 "Missing API key" ])
  else
    ({| upstream := Some CONNECTING; downstream := OPEN |},
     [ ConnectUp (geminiWsEndpoint cfg ++ "?key=" ++ geminiApiKey cfg)%string ]).

(** Socket events delivered by the [ws] library. *)
Inductive Event : Type :=
| UpstreamOpen
| UpstreamMessage (data : RawData)
| UpstreamClose (code : Z) (reason : string)
| UpstreamError
| ClientMessage (data : RawData)
| ClientClose
| ClientError.

(** [client.close] starts the closing handshake of an open socket. *)
Definition closing (rs : ReadyState) : ReadyState :=
  match rs with
  | CLOSED => CLOSED
  | _ => CLOSING
  end.

(** One event: the socket states move as [ws] moves them ([open] is emitted
    once, from [CONNECTING]; [close] is emitted once and is final; an
    [error] leaves the socket closing; messages arrive on a socket that is
    not closed), and the registered handler runs.  An event the library
    cannot emit in the current state is ignored. *)
Definition step (cfg : Config) (st : Session) (ev : Event) : Session * list Action :=
  match upstream st with
  | None =>
      match ev with
      | ClientClose => ({| upstream := None; downstream := CLOSED |}, [])
      | _ => (st, [])
      end
  | Some rs =>
      match ev with
      | UpstreamOpen =>
          if ReadyState_eqb rs CONNECTING then
            ({| upstream := Some OPEN; downstream := downstream st |},
             on_upstream_open cfg)
          else (st, [])
      | UpstreamMessage data =>
          if ReadyState_eqb rs OPEN || ReadyState_eqb rs CLOSING then
            (st, on_upstream_message data)
          else (st, [])
      | UpstreamClose code reason =>
          if ReadyState_eqb rs CLOSED then (st, [])
          else
            ({| upstream := Some CLOSED; downstream := closing (downstream st) |},
             on_upstream_close code reason)
      | UpstreamError =>
          if ReadyState_eqb rs CLOSED then (st, [])
          else
            ({| upstream := Some CLOSING; downstream := downstream st |},
             on_upstream_error)
      | ClientMessage data =>
          if ReadyState_eqb (downstream st) CLOSED then (st, [])
          else (st, on_client_message rs data)
      | ClientClose =>
          if ReadyState_eqb (downstream st) CLOSED then (st, [])
          else
            ({| upstream := Some (closing rs); downstream := CLOSED |},
             on_client_close rs)
      | ClientError => (st, [])
      end
  end.

(** A session: the connection handler, then the events in order.  The
    actions are accumulated in program order. *)
Fixpoint run_from (cfg : Config) (st : Session) (acts : list Action)
         (evs : list Event) : Session * list Action :=
  match evs with
  | [] => (st, acts)
  | ev :: rest =>
      let '(st', out) := step cfg st ev in
      run_from cfg st' (acts ++ out) rest
  end.

Definition run (cfg : Config) (evs : list Event) : Session * list Action :=
  let '(st, acts) := connection cfg in run_from cfg st acts evs.

Definition state_after (cfg : Config) (evs : list Event) : Session :=
  fst (run cfg evs).

Definition trace (cfg : Config) (evs : list Event) : list Action :=
  snd (run cfg evs).

(** *** Sample sessions and the invariants of a session *)

(** A configuration with the bridge enabled and a credential, used for the
    concrete sessions below. *)
Definition sample_config : Config :=
  {| geminiModel := "gemini-live";
     enableGeminiBridge := true;
     geminiApiKey := "secret";
     geminiWsEndpoint := "wss://upstream.example/ws";
     vadStartSensitivity := "START_SENSITIVITY_LOW";
     vadEndSensitivity := "END_SENSITIVITY_LOW";
     vadPrefixPaddingMs := 20;
     vadSilenceDurationMs := 100 |}.

Definition disabled_config : Config :=
  {| geminiModel := "gemini-live";
     enableGeminiBridge := false;
     geminiApiKey := "secret";
     geminiWsEndpoint := "wss://upstream.example/ws";
     vadStartSensitivity := "START_SENSITIVITY_LOW";
     vadEndSensitivity := "END_SENSITIVITY_LOW";
     vadPrefixPaddingMs := 20;
     vadSilenceDurationMs := 100 |}.

Definition keyless_config : Config :=
  {| geminiModel := "gemini-live";
     enableGeminiBridge := true;
     geminiApiKey := "";
     geminiWsEndpoint := "wss://upstream.example/ws";
     vadStartSensitivity := "START_SENSITIVITY_LOW";
     vadEndSensitivity := "END_SENSITIVITY_LOW";
     vadPrefixPaddingMs := 20;
     vadSilenceDurationMs := 100 |}.

Definition audio_message : value :=
  JObj [("type"%string, JStr "audio"); ("data"%string, JStr "AAAA")].

Definition audio_without_data : value :=
  JObj [("type"%string, JStr "audio");
        ("mimeType"%string, JStr "audio/pcm;rate=16000")].

Definition ping_message : value := JObj [("type"%string, JStr "ping")].

Definition connected_frame : Action := SendDown (DStatus "gemini_connected" None).

(** Reachable sessions: the two sockets are paired as the handlers leave
    them. *)
Definition paired (st : Session) : Prop :=
  (downstream st = OPEN -> exists rs, upstream st = Some rs /\ rs <> CLOSED)
  /\ (upstream st = Some OPEN -> downstream st = OPEN)
  /\ (upstream st = Some CONNECTING -> downstream st = OPEN).

(** The trace invariant behind the ordering property: once [geminiWs] is
    open the [gemini_connected] status is in the trace, and every audio
    frame sent upstream comes after it. *)
Definition audio_after_connected (acts : list Action) : Prop :=
  forall pre d m post,
    acts = pre ++ SendUp (URealtimeAudio d m) :: post ->
    In connected_frame pre.

Definition ordered (st : Session) (acts : list Action) : Prop :=
  (upstream st = Some OPEN -> In connected_frame acts)
  /\ audio_after_connected acts.

(** The frames sent upstream, in order. *)
Definition is_send_up (a : Action) : bool :=
  match a with SendUp _ => true | _ => false end.

Definition is_setup (a : Action) : bool :=
  match a with SendUp (USetup _) => true | _ => false end.

Definition upstream_frames (acts : list Action) : list Action :=
  filter is_send_up acts.

(** The setup frame was sent, first and once. *)
Definition setup_sent (cfg : Config) (ups : list Action) : Prop :=
  exists rest,
    ups = SendUp (USetup (buildGeminiSetup cfg)) :: rest
    /\ filter is_setup rest = [].

Definition setup_discipline (cfg : Config) (st : Session) (acts : list Action) : Prop :=
  match upstream st with
  | None | Some CONNECTING => upstream_frames acts = []
  | Some OPEN => setup_sent cfg (upstream_frames acts)
  | Some _ => upstream_frames acts = [] \/ setup_sent cfg (upstream_frames acts)
  end.

(** *** The lifecycle of the two sockets in a trace *)

Definition is_close_down (a : Action) : bool :=
  match a with CloseDown _ _ => true | _ => false end.

Definition is_up_close (a : Action) : bool :=
  match a with CloseUp _ _ | TerminateUp => true | _ => false end.

(** What the bridge does to [geminiWs] once it exists. *)
Definition is_up_action (a : Action) : bool :=
  match a with SendUp _ | CloseUp _ _ | TerminateUp => true | _ => false end.

Definition downstream_closes (acts : list Action) : list Action :=
  filter is_close_down acts.

Definition upstream_actions (acts : list Action) : list Action :=
  filter is_up_action acts.



(** Frames sent upstream, then at most one close or terminate. *)
Definition frames_then_close (ups : list Action) (closed : bool) : Prop :=
  exists frames tail,
    ups = frames ++ tail
    /\ Forall (fun a => exists f, a = SendUp f) frames
    /\ (if closed
        then tail = [CloseUp 1000 "Client disconnected"] \/ tail = [TerminateUp]
        else tail = []).

Definition teardown_discipline (st : Session) (acts : list Action) : Prop :=
  match upstream st with
  | None => upstream_actions acts = []
  | Some rs =>
      frames_then_close (upstream_actions acts)
                        (ReadyState_eqb (downstream st) CLOSED)
      /\ (downstream st = CLOSED -> rs = CLOSING \/ rs = CLOSED)
  end.

End Bridge.

(* ===================================================================== *)
(** ** PCM16 and base64 conversion in the browser client *)
(* ===================================================================== *)

Module Pcm.

(** *** The platform's [atob] and [btoa]

    Both are modelled from their specification (the HTML standard's
    forgiving-base64 decode and base64 encode); a binary string is a
    [string] whose characters are the code units 0 to 255. *)

Definition charCodeAt (c : ascii) : Z := Z.of_N (N_of_ascii c).

(** [String.fromCharCode] of a byte. *)
Definition fromCharCode (b : Z) : ascii := ascii_of_N (Z.to_N b).

Definition alphabet : list ascii :=
  list_ascii_of_string
    "ABCDEFGHIJKLMNOPQRSTUVWXYZabcdefghijklmnopqrstuvwxyz0123456789+/".

Definition pad_char : ascii := "="%char.

Definition b64_char (i : Z) : ascii := nth (Z.to_nat i) alphabet pad_char.

(** The value of a character of the alphabet. *)
Definition b64_index (c : ascii) : option Z :=
  let n := charCodeAt c in
  if (65 <=? n) && (n <=? 90) then Some (n - 65)
  else if (97 <=? n) && (n <=? 122) then Some (n - 71)
  else if (48 <=? n) && (n <=? 57) then Some (n + 4)
  else if n =? 43 then Some 62
  else if n =? 47 then Some 63
  else None.

(** base64 encode: three bytes give four characters; a last group of one
    or two bytes is completed with zero bits and padded with [=]. *)
Fixpoint encode_bytes (bytes : list Z) : list ascii :=
  match bytes with
  | [] => []
  | [a] =>
      [ b64_char (a / 4); b64_char ((a mod 4) * 16); pad_char; pad_char ]
  | [a; b] =>
      [ b64_char (a / 4); b64_char ((a mod 4) * 16 + b / 16);
        b64_char ((b mod 16) * 4); pad_char ]
  | a :: b :: c :: rest =>
      b64_char (a / 4) :: b64_char ((a mod 4) * 16 + b / 16)
        :: b64_char ((b mod 16) * 4 + c / 64) :: b64_char (c mod 64)
        :: encode_bytes rest
  end.

Definition btoa (binary : string) : string :=
  string_of_list_ascii
    (encode_bytes (map charCodeAt (list_ascii_of_string binary))).

(** TAB, LF, FF, CR and SPACE. *)
Definition is_ascii_whitespace (c : ascii) : bool :=
  let n := charCodeAt c in
  (n =? 9) || (n =? 10) || (n =? 12) || (n =? 13) || (n =? 32).

(** Remove one or two [=] at the end. *)
Definition strip_padding (data : list ascii) : list ascii :=
  match rev data with
  | p :: q :: r =>
      if Ascii.eqb p pad_char then
        if Ascii.eqb q pad_char then rev r else rev (q :: r)
      else data
  | [p] => if Ascii.eqb p pad_char then [] else data
  | [] => data
  end.

Fixpoint sextets (data : list ascii) : option (list Z) :=
  match data with
  | [] => Some []
  | c :: rest =>
      match b64_index c, sextets rest with
      | Some i, Some l => Some (i :: l)
      | _, _ => None
      end
  end.

(** Four sextets give three bytes; of a last group of two (three) sextets
    the last four (two) bits are discarded. *)
Fixpoint decode_sextets (s : list Z) : list Z :=
  match s with
  | a :: b :: c :: d :: rest =>
      (a * 4 + b / 16) :: ((b mod 16) * 16 + c / 4) :: ((c mod 4) * 64 + d)
        :: decode_sextets rest
  | [a; b; c] => [ a * 4 + b / 16; (b mod 16) * 16 + c / 4 ]
  | [a; b] => [ a * 4 + b / 16 ]
  | _ => []
  end.

(** Forgiving-base64 decode; [None] is the [InvalidCharacterError]. *)
Definition atob (data : string) : option string :=
  let d1 := filter (fun c => negb (is_ascii_whitespace c))
                   (list_ascii_of_string data) in
  let d2 := if (Nat.modulo (List.length d1) 4 =? 0)%nat then strip_padding d1 else d1 in
  if (Nat.modulo (List.length d2) 4 =? 1)%nat then None
  else
    match sextets d2 with
    | None => None
    | Some s => Some (string_of_list_ascii (map fromCharCode (decode_sextets s)))
    end.

(** *** Typed arrays and [DataView] *)

(** The value stored in an [Int16Array] element for an integer [v]. *)
Definition ToInt16 (v : Z) : Z :=
  let u := v mod 65536 in
  if u >=? 32768 then u - 65536 else u.

(** [view.getInt16(offset, true)] over the bytes of the buffer; [None] is
    the [RangeError] of a read past the end of the buffer. *)
Definition getInt16 (bytes : list Z) (offset : nat) : option Z :=
  match nth_error bytes offset, nth_error bytes (S offset) with
  | Some lo, Some hi => Some (ToInt16 (lo + 256 * hi))
  | _, _ => None
  end.

(** The two bytes [view.setInt16(_, v, true)] writes. *)
Definition setInt16 (v : Z) : list Z :=
  [ (v mod 65536) mod 256; (v mod 65536) / 256 ].

(** [new Int16Array(length)] for [length = n / 2] with [n] a string
    length: the constructor converts its argument with ToIndex, which
    truncates the fraction [1/2] of an odd [n]; a length that is not
    negative is never rejected. *)
Definition Int16Array_length (n : nat) : nat := Nat.div n 2.

(** *** [decodeBase64ToInt16] *)

(** The loop [for (i = ...; i < result.length; i += 1)
    result[i] = view.getInt16(i * 2, true)], with [todo] the number of
    elements still to be written. *)
Fixpoint read_samples (bytes : list Z) (i todo : nat) : option (list Z) :=
  match todo with
  | O => Some []
  | S todo' =>
      match getInt16 bytes (i * 2), read_samples bytes (S i) todo' with
      | Some v, Some rest => Some (v :: rest)
      | _, _ => None
      end
  end.

Definition decodeBase64ToInt16 (base64 : string) : option (list Z) :=
  match atob base64 with
  | None => None
  | Some binary =>
      let bytes := map charCodeAt (list_ascii_of_string binary) in
      read_samples bytes 0 (Int16Array_length (String.length binary))
  end.

(** *** [int16ToBase64] *)

Definition chunk : nat := 2 ^ 15.

(** The loop [for (i = 0; i < bytes.length; i += chunk)], on the bytes
    from [i] on; [fuel] bounds the number of iterations. *)
Fixpoint concat_chunks (fuel : nat) (bytes : list Z) : list ascii :=
  match fuel with
  | O => []
  | S fuel' =>
      match bytes with
      | [] => []
      | _ => map fromCharCode (firstn chunk bytes)
               ++ concat_chunks fuel' (skipn chunk bytes)
      end
  end.

Definition int16ToBase64 (data : list Z) : string :=
  let bytes := flat_map setInt16 data in
  let binary := string_of_list_ascii (concat_chunks (List.length bytes) bytes) in
  btoa binary.

(** *** The encoder and the sample reader, step by step *)

Definition is_byte (b : Z) : Prop := 0 <= b < 256.

Definition is_sextet (i : Z) : Prop := 0 <= i < 64.

Definition table_ok (i : Z) : bool :=
  match b64_index (b64_char i) with
  | Some j => j =? i
  | None => false
  end
  && negb (is_ascii_whitespace (b64_char i))
  && negb (Ascii.eqb (b64_char i) pad_char).

Fixpoint to_sextets (bytes : list Z) : list Z :=
  match bytes with
  | [] => []
  | [a] => [ a / 4; (a mod 4) * 16 ]
  | [a; b] => [ a / 4; (a mod 4) * 16 + b / 16; (b mod 16) * 4 ]
  | a :: b :: c :: rest =>
      a / 4 :: (a mod 4) * 16 + b / 16 :: (b mod 16) * 4 + c / 64 :: c mod 64
        :: to_sextets rest
  end.

Fixpoint padding (bytes : list Z) : list ascii :=
  match bytes with
  | [] => []
  | [_] => [pad_char; pad_char]
  | [_; _] => [pad_char]
  | _ :: _ :: _ :: rest => padding rest
  end.

Definition is_padding (p : list ascii) : Prop :=
  p = [] \/ p = [pad_char] \/ p = [pad_char; pad_char].

(** The samples of a byte sequence: consecutive pairs, low byte first; a
    trailing single byte gives no sample. *)
Fixpoint samples_of_bytes (bytes : list Z) : list Z :=
  match bytes with
  | a :: b :: rest => ToInt16 (a + 256 * b) :: samples_of_bytes rest
  | _ => []
  end.

(** *** Valid base64 text (RFC 4648)

    Groups of four characters of the alphabet; the last group may end with
    one or two [=], and then the bits of its last character that encode no
    byte are zero. *)

Definition in_alphabet (c : ascii) : bool :=
  match b64_index c with Some _ => true | None => false end.

Definition index_of (c : ascii) : Z :=
  match b64_index c with Some i => i | None => 0 end.

Fixpoint valid_base64_chars (l : list ascii) : bool :=
  match l with
  | [] => true
  | a :: b :: c :: d :: rest =>
      in_alphabet a && in_alphabet b
      && match rest with
         | [] =>
             if Ascii.eqb d pad_char then
               if Ascii.eqb c pad_char then index_of b mod 16 =? 0
               else in_alphabet c && (index_of c mod 4 =? 0)
             else in_alphabet c && in_alphabet d
         | _ => in_alphabet c && in_alphabet d && valid_base64_chars rest
         end
  | _ => false
  end.

Definition valid_base64 (s : string) : bool :=
  valid_base64_chars (list_ascii_of_string s).

Definition alphabet_ok (c : ascii) : bool :=
  match b64_index c with
  | Some i => (0 <=? i) && (i <? 64) && Ascii.eqb (b64_char i) c
  | None => true
  end.

End Pcm.

(* ===================================================================== *)
(** ** Playback scheduling in the browser client *)
(* ===================================================================== *)

Module Playback.

(** The module variables of the client that playback uses.  Times are
    readings of the audio clock ([ctx.currentTime]), taken as rationals;
    an [AudioBufferSourceNode] is named by its creation number. *)
Record State : Type := {
  geminiAudioContext : bool;        (* false: null *)
  geminiOutputTime : Q;
  geminiPlaying : list nat;         (* the Set, in insertion order *)
  geminiPlaybackPrimed : bool;
  created : nat                     (* sources created so far *)
}.

Definition initial : State :=
  {| geminiAudioContext := false;
     geminiOutputTime := 0;
     geminiPlaying := [];
     geminiPlaybackPrimed := false;
     created := 0 |}.

Inductive Effect : Type :=
| Start (source : nat) (when : Q)   (* source.start(when) *)
| Stop (source : nat).              (* source.stop() *)

Definition ensureAudioContext (st : State) : State :=
  {| geminiAudioContext := true;
     geminiOutputTime := geminiOutputTime st;
     geminiPlaying := geminiPlaying st;
     geminiPlaybackPrimed := geminiPlaybackPrimed st;
     created := created st |}.

(** [stopGeminiPlayback]; [now] is [geminiAudioContext.currentTime], read
    only when the context exists. *)
Definition stopGeminiPlayback (now : Q) (st : State) : State * list Effect :=
  ({| geminiAudioContext := geminiAudioContext st;
      geminiOutputTime := if geminiAudioContext st then now else 0;
      geminiPlaying := [];
      geminiPlaybackPrimed := false;
      created := created st |},
   map Stop (geminiPlaying st)).

(** [geminiPlaying.add(source)]. *)
Definition set_add (x : nat) (s : list nat) : list nat :=
  if existsb (Nat.eqb x) s then s else s ++ [x].

(** [geminiPlaying.delete(source)], run when the source has ended. *)
Definition ended (source : nat) (st : State) : State :=
  {| geminiAudioContext := geminiAudioContext st;
     geminiOutputTime := geminiOutputTime st;
     geminiPlaying := filter (fun x => negb (Nat.eqb x source)) (geminiPlaying st);
     geminiPlaybackPrimed := geminiPlaybackPrimed st;
     created := created st |}.

Definition leadIn (st : State) : Q :=
  if geminiPlaybackPrimed st then 2 # 100 else 2 # 10.

(** [Math.max] of two finite numbers. *)
Definition Math_max (a b : Q) : Q := if Qle_bool a b then b else a.

(** The end of [playGeminiAudio], from the computation of [leadIn] on, for
    a buffer of the given duration; [now] is [ctx.currentTime] there. *)
Definition schedule (now duration : Q) (st : State) : State * list Effect :=
  let source := created st in
  let startAt := Math_max (now + leadIn st)%Q (geminiOutputTime st) in
  ({| geminiAudioContext := geminiAudioContext st;
      geminiOutputTime := (startAt + duration)%Q;
      geminiPlaying := set_add source (geminiPlaying st);
      geminiPlaybackPrimed := true;
      created := S (created st) |},
   [Start source startAt]).

(** [playGeminiAudio] when nothing else runs while it waits for the
    LiveKit track.  The decoding throws when [atob] rejects the payload,
    and [ctx.createBuffer] throws for a buffer without a sample frame; in
    both cases only the audio context has been created. *)
Definition playGeminiAudio (geminiOutputSampleRate : Q) (base64 : string)
           (now : Q) (st : State) : State * list Effect :=
  let st := ensureAudioContext st in
  match Pcm.decodeBase64ToInt16 base64 with
  | None => (st, [])
  | Some pcm16 =>
      match pcm16 with
      | [] => (st, [])
      | _ =>
          let duration :=
            (inject_Z (Z.of_nat (List.length pcm16)) / geminiOutputSampleRate)%Q in
          schedule now duration st
      end
  end.

(** What the message handler of the client does to playback. *)
Inductive Event : Type :=
| Chunk (base64 : string) (now : Q)   (* an inline audio part *)
| SourceEnded (source : nat)          (* the "ended" listener *)
| Interrupted (now : Q).              (* serverContent.interrupted *)

Definition step (rate : Q) (st : State) (ev : Event) : State * list Effect :=
  match ev with
  | Chunk base64 now => playGeminiAudio rate base64 now st
  | SourceEnded source => (ended source st, [])
  | Interrupted now => stopGeminiPlayback now st
  end.

Definition state_after (rate : Q) (evs : list Event) : State :=
  fold_left (fun st ev => fst (step rate st ev)) evs initial.

(** *** The invariant of the tracking set *)

(** The audio context is never dropped, and a source is tracked only after
    [playGeminiAudio] created the context. *)
Definition tracked_with_context (st : State) : Prop :=
  geminiPlaying st <> [] -> geminiAudioContext st = true.

(** *** The samples of the buffer and the effects of a run *)

(** The loop [float32[i] = pcm16[i] / 0x8000] of [playGeminiAudio]; each
    quotient is a number that single precision represents exactly. *)
Definition to_float32 (pcm16 : list Z) : list Q :=
  map (fun v => (inject_Z v / inject_Z 32768)%Q) pcm16.

(** A run from the initial state, with the calls made on the source nodes in
    program order. *)
Fixpoint run_from (rate : Q) (st : State) (effects : list Effect)
         (evs : list Event) : State * list Effect :=
  match evs with
  | [] => (st, effects)
  | ev :: rest =>
      let '(st', out) := step rate st ev in
      run_from rate st' (effects ++ out) rest
  end.

Definition effects_after (rate : Q) (evs : list Event) : list Effect :=
  snd (run_from rate initial [] evs).

(** What a run keeps true of the tracking set and of the calls made. *)
Definition tracking_discipline (st : State) (effects : list Effect) : Prop :=
  NoDup (geminiPlaying st)
  /\ (forall s, In s (geminiPlaying st) ->
                (exists t, In (Start s t) effects) /\ ~ In (Stop s) effects)
  /\ (forall s t, In (Start s t) effects -> (s < created st)%nat)
  /\ (forall s, In (Stop s) effects -> (s < created st)%nat).

Definition stops_follow_starts (effects : list Effect) : Prop :=
  forall pre s post,
    effects = pre ++ Stop s :: post ->
    (exists t, In (Start s t) pre) /\ ~ In (Stop s) pre.

End Playback.

(* ===================================================================== *)
(** ** The capture resampler in the browser client *)
(* ===================================================================== *)

Module Resampler.

(** JavaScript numbers, with the arithmetic of the finite ones taken
    exact: a finite number is a rational, and the two infinities and NaN
    are kept apart.  The sign of a zero is not recorded; no operation below
    depends on it. *)
Inductive num : Type :=
| Fin (q : Q)
| PInf
| NInf
| NaN.

(** [a + b] *)
Definition add (a b : num) : num :=
  match a, b with
  | NaN, _ | _, NaN => NaN
  | PInf, NInf | NInf, PInf => NaN
  | PInf, _ | _, PInf => PInf
  | NInf, _ | _, NInf => NInf
  | Fin x, Fin y => Fin (x + y)%Q
  end.

(** [a / n] for an integer [n >= 1] *)
Definition div_count (a : num) (n : Z) : num :=
  match a with
  | Fin x => Fin (x / inject_Z n)%Q
  | other => other
  end.

(** [a * k] for a constant [k > 0] *)
Definition mul_const (a : num) (k : Z) : num :=
  match a with
  | Fin x => Fin (x * inject_Z k)%Q
  | other => other
  end.

(** [Math.min(1, a)] *)
Definition min_1 (a : num) : num :=
  match a with
  | NaN => NaN
  | PInf => Fin 1
  | NInf => NInf
  | Fin x => if Qle_bool x 1 then Fin x else Fin 1
  end.

(** [Math.max(-1, a)] *)
Definition max_neg1 (a : num) : num :=
  match a with
  | NaN => NaN
  | PInf => PInf
  | NInf => Fin (-1)
  | Fin x => if Qle_bool (-1) x then Fin x else Fin (-1)
  end.

(** [a < 0] *)
Definition lt_0 (a : num) : bool :=
  match a with
  | Fin x => negb (Qle_bool 0 x)
  | NInf => true
  | PInf | NaN => false
  end.

(** Truncation toward zero. *)
Definition truncate (x : Q) : Z := Z.quot (Qnum x) (Zpos (Qden x)).

(** The conversion applied by a store into an [Int16Array]: NaN and the
    infinities give 0, a finite number is truncated and wrapped. *)
Definition store_int16 (a : num) : Z :=
  match a with
  | Fin x => Pcm.ToInt16 (truncate x)
  | _ => 0
  end.

(** [s = Math.max(-1, Math.min(1, x)); result[_] = s < 0 ? s * 0x8000 : s * 0x7fff] *)
Definition quantize (x : num) : Z :=
  let s := max_neg1 (min_1 x) in
  store_int16 (if lt_0 s then mul_const s 32768 else mul_const s 32767).

(** [Math.round] of a finite number: the nearest integer, a tie going up. *)
Definition Math_round (x : Q) : Z := Qfloor (x + (1 # 2))%Q.

(** [buffer[i]] ([undefined], hence NaN in a sum, outside the buffer). *)
Definition sample (buffer : list num) (i : Z) : num :=
  if i <? 0 then NaN else nth (Z.to_nat i) buffer NaN.

Definition divisor (count : Z) : Z := Z.max 1 count.

Definition average (accum : num) (count : Z) : num :=
  div_count accum (divisor count).

(** The inner [for] loop: [i] runs from [offsetBuffer] while
    [i < nextOffsetBuffer && i < buffer.length]. *)
Fixpoint accumulate (fuel : nat) (buffer : list num) (nextOffsetBuffer : Z)
         (i : Z) (accum : num) (count : Z) : num * Z :=
  match fuel with
  | O => (accum, count)
  | S fuel' =>
      if (i <? nextOffsetBuffer) && (i <? Z.of_nat (List.length buffer)) then
        accumulate fuel' buffer nextOffsetBuffer (i + 1)
                   (add accum (sample buffer i)) (count + 1)
      else (accum, count)
  end.

(** The [while (offsetResult < result.length)] loop, with [todo] the
    number of elements of [result] still to be written. *)
Fixpoint fill (todo : nat) (ratio : Q) (buffer : list num)
         (offsetResult offsetBuffer : Z) : list Z :=
  match todo with
  | O => []
  | S todo' =>
      let nextOffsetBuffer := Math_round (inject_Z (offsetResult + 1) * ratio)%Q in
      let '(accum, count) :=
        accumulate (Z.to_nat (nextOffsetBuffer - offsetBuffer)) buffer
                   nextOffsetBuffer offsetBuffer (Fin 0) 0 in
      quantize (average accum count)
        :: fill todo' ratio buffer (offsetResult + 1) nextOffsetBuffer
  end.

(** [new Int16Array(Math.round(buffer.length / ratio))]: [None] is the
    [RangeError] of a negative or infinite length; a NaN length gives an
    empty array. *)
Definition new_length (length : nat) (sampleRate target : Q) : option nat :=
  if Qeq_bool target 0 then
    (* ratio is an infinity: length / ratio is a zero *)
    Some O
  else if Qeq_bool sampleRate 0 then
    (* ratio is a zero: 0 / 0 is NaN, anything else an infinity *)
    match length with O => Some O | S _ => None end
  else
    let n := Math_round (inject_Z (Z.of_nat length) / (sampleRate / target))%Q in
    if n <? 0 then None else Some (Z.to_nat n).

(** [downsampleTo16k(buffer, sampleRate)] with [geminiInputSampleRate] as
    a parameter; the rates are finite numbers. *)
Definition downsampleTo16k (geminiInputSampleRate : Q) (buffer : list num)
           (sampleRate : Q) : option (list Z) :=
  if Qeq_bool sampleRate geminiInputSampleRate then
    Some (map quantize buffer)
  else
    match new_length (List.length buffer) sampleRate geminiInputSampleRate with
    | None => None
    | Some newLength =>
        Some (fill newLength (sampleRate / geminiInputSampleRate)%Q buffer 0 0)
    end.

(** *** The resampler as the specification words it *)

(** Sum of the samples of index [lo <= i < hi] that exist. *)
Definition window (buffer : list num) (lo hi : Z) : list num :=
  firstn (Z.to_nat (Z.min hi (Z.of_nat (List.length buffer)) - lo))
         (skipn (Z.to_nat lo) buffer).

Definition sum (l : list num) : num := fold_left add l (Fin 0).

(** The box average of output sample [k]: the mean of the input samples
    between [round(k * ratio)] and [round((k + 1) * ratio)], and 0 when
    there is none. *)
Definition box_average (ratio : Q) (buffer : list num) (k : Z) : num :=
  let w := window buffer (Math_round (inject_Z k * ratio)%Q)
                  (Math_round (inject_Z (k + 1) * ratio)%Q) in
  div_count (sum w) (Z.max 1 (Z.of_nat (List.length w))).


(** The output as the specification words it: [n] samples, sample [k] the
    quantized box average of its window. *)
Definition box_filter (ratio : Q) (buffer : list num) (n : nat) : list Z :=
  map (fun k => quantize (box_average ratio buffer (Z.of_nat k))) (seq 0 n).

(** *** Ranges *)

Definition int16_range (v : Z) : Prop := -32768 <= v <= 32767.

(** The clamped value of a finite number. *)
Definition clamp_unit (q : Q) : Q :=
  if Qle_bool q 1 then (if Qle_bool (-1) q then q else (-1)%Q) else 1%Q.

End Resampler.

(* ===================================================================== *)
(** ** Microphone capture: the worklet processor and its message handler *)
(* ===================================================================== *)

Module Capture.
Import Json.

(** [GeminiMicProcessor.process(inputs)] in the audio worklet, with the
    worklet's global [sampleRate].  It returns [true] in all cases; the
    message posted to the main thread, if any, carries the sample rate and a
    copy of the first channel of the first input. *)
Definition process (sampleRate : Q) (inputs : list (list (list Resampler.num)))
  : bool * option (Q * list Resampler.num) :=
  match inputs with
  | [] => (true, None)
  | input :: _ =>
      match input with
      | [] => (true, None)
      | channel :: _ => (true, Some (sampleRate, channel))
      end
  end.

(** The frame sent by the handler:
    [{type: "audio", data: base64, mimeType: `audio/pcm;rate=${rate}`}];
    [rate_text] is the text the template literal gives for
    [geminiInputSampleRate]. *)
Definition audio_frame (rate_text base64 : string) : value :=
  JObj [ ("type"%string, JStr "audio");
         ("data"%string, JStr base64);
         ("mimeType"%string, JStr ("audio/pcm;rate=" ++ rate_text)) ].

Inductive Outcome : Type :=
| Ignored                 (* the handler returns without sending *)
| Sent (frame : value)    (* geminiWs.send(JSON.stringify(frame)) *)
| Thrown.                 (* the RangeError of the resampler *)

(** [geminiWorklet.port.onmessage]: [socket_open] says that [geminiWs] is set
    and open; [data] is [None] when the event carries no buffer or no numeric
    sample rate. *)
Definition worklet_onmessage (socket_open geminiReady : bool)
           (geminiInputSampleRate : Q) (rate_text : string)
           (data : option (Q * list Resampler.num)) : Outcome :=
  if negb socket_open || negb geminiReady then Ignored
  else
    match data with
    | None => Ignored
    | Some (sampleRate, buffer) =>
        match Resampler.downsampleTo16k geminiInputSampleRate buffer sampleRate with
        | None => Thrown
        | Some pcm16 => Sent (audio_frame rate_text (Pcm.int16ToBase64 pcm16))
        end
    end.

End Capture.

(* ===================================================================== *)
(** ** The transcript fan-out of the server ([/events], [broadcastTranscript]) *)
(* ===================================================================== *)

Module Transcript.

Record TranscriptEvent : Type := {
  id : string;
  role : string;
  text : string;
  createdAt : string
}.

(** What is written to a response: the line feed written when the stream
    starts, or the text [`event: transcript\ndata: ${JSON.stringify(event)}\n\n`]
    of an event. *)
Inductive Chunk : Type :=
| LineFeed
| EventText (event : TranscriptEvent).

(** A response object is named by a number. *)
Inductive Output : Type :=
| WriteHead (res : nat) (status : Z)   (* res.writeHead(status, headers) *)
| Write (res : nat) (chunk : Chunk).   (* res.write(chunk) *)

Inductive Event : Type :=
| EventsRequest (res : nat)     (* GET /events, answered through res *)
| RequestClosed (res : nat)     (* the "close" event of that request *)
| Broadcast (event : TranscriptEvent).

(** [transcriptClients], a [Set], in insertion order. *)
Definition Clients : Type := list nat.

Definition add (res : nat) (clients : Clients) : Clients :=
  if existsb (Nat.eqb res) clients then clients else clients ++ [res].

Definition delete (res : nat) (clients : Clients) : Clients :=
  filter (fun r => negb (Nat.eqb r res)) clients.

Definition broadcastTranscript (event : TranscriptEvent) (clients : Clients)
  : list Output :=
  map (fun client => Write client (EventText event)) clients.

Definition step (clients : Clients) (ev : Event) : Clients * list Output :=
  match ev with
  | EventsRequest res =>
      (add res clients, [WriteHead res 200; Write res LineFeed])
  | RequestClosed res => (delete res clients, [])
  | Broadcast event => (clients, broadcastTranscript event clients)
  end.

Definition clients_after (evs : list Event) : Clients :=
  fold_left (fun clients ev => fst (step clients ev)) evs [].

(** Whether the stream of [res] is open after the events: the last request
    or close that names [res] decides. *)
Definition subscribed (res : nat) (evs : list Event) : bool :=
  fold_left
    (fun open ev =>
       match ev with
       | EventsRequest r => if Nat.eqb r res then true else open
       | RequestClosed r => if Nat.eqb r res then false else open
       | Broadcast _ => open
       end)
    evs false.

Definition is_event_for (res : nat) (o : Output) : bool :=
  match o with
  | Write r (EventText _) => Nat.eqb r res
  | _ => false
  end.

End Transcript.

(* ===================================================================== *)
(** * Theorems *)
(* ===================================================================== *)

(** ** The bridge *)

Section BridgeFacts.
Import Json Bridge.

Lemma ReadyState_eqb_eq (a b : ReadyState) : ReadyState_eqb a b = true <-> a = b.
Proof. destruct a, b; simpl; split; intro H; congruence. Qed.

Lemma run_from_snoc cfg evs : forall st acts ev,
  run_from cfg st acts (evs ++ [ev]) =
  (fst (step cfg (fst (run_from cfg st acts evs)) ev),
   snd (run_from cfg st acts evs)
     ++ snd (step cfg (fst (run_from cfg st acts evs)) ev)).
Proof.
  induction evs as [|e evs IH]; intros st acts ev; simpl.
  - destruct (step cfg st ev); reflexivity.
  - destruct (step cfg st e) as [st' out]. apply IH.
Qed.

Lemma run_snoc cfg evs ev :
  run cfg (evs ++ [ev]) =
  (fst (step cfg (state_after cfg evs) ev),
   trace cfg evs ++ snd (step cfg (state_after cfg evs) ev)).
Proof.
  unfold state_after, trace, run.
  destruct (connection cfg) as [st acts]. apply run_from_snoc.
Qed.

(** What the handlers can emit. *)
Ltac split_ifs :=
  repeat match goal with
         | |- context [if ?b then _ else _] => destruct b eqn:?
         | |- context [match ?x with _ => _ end] => destruct x eqn:?
         | H : context [if ?b then _ else _] |- _ => destruct b eqn:?
         | H : context [match ?x with _ => _ end] |- _ => destruct x eqn:?
         end.

Ltac in_cases :=
  repeat match goal with
         | H : In _ (_ :: _) |- _ => destruct H as [H|H]
         | H : In _ [] |- _ => destruct H
         | H : _ \/ _ |- _ => destruct H as [H|H]
         | H : False |- _ => destruct H
         | H : In _ (_ ++ _) |- _ => apply in_app_or in H; destruct H as [H|H]
         end;
  try discriminate; try contradiction.

Lemma on_client_message_audio rs data d m :
  In (SendUp (URealtimeAudio d m)) (on_client_message rs data) -> rs = OPEN.
Proof.
  unfold on_client_message, invalid_client_message. intro H.
  destruct (ReadyState_eqb rs OPEN) eqn:E; [now apply ReadyState_eqb_eq|].
  exfalso. simpl in H. split_ifs; in_cases.
Qed.

Lemma step_audio cfg st ev d m :
  In (SendUp (URealtimeAudio d m)) (snd (step cfg st ev)) ->
  upstream st = Some OPEN.
Proof.
  unfold step. intro H.
  destruct (upstream st) as [rs|] eqn:U.
  - destruct ev; simpl in H;
      unfold on_upstream_open, on_upstream_close, on_upstream_error in H.
    + destruct (ReadyState_eqb rs CONNECTING); simpl in H; in_cases.
    + unfold on_upstream_message in H.
      split_ifs; simpl in H; in_cases.
    + destruct (ReadyState_eqb rs CLOSED); simpl in H; in_cases.
    + destruct (ReadyState_eqb rs CLOSED); simpl in H; in_cases.
    + destruct (ReadyState_eqb (downstream st) CLOSED); simpl in H; [contradiction|].
      apply on_client_message_audio in H. now subst.
    + unfold on_client_close in H.
      split_ifs; simpl in H; in_cases.
    + destruct H.
  - destruct ev; simpl in H; destruct H.
Qed.

Lemma connection_paired cfg : paired (fst (connection cfg)).
Proof.
  unfold connection, paired.
  destruct (negb (enableGeminiBridge cfg)); simpl.
  - repeat split; intros; discriminate.
  - destruct (String.eqb (geminiApiKey cfg) EmptyString); simpl;
      repeat split; intros; try discriminate.
    exists CONNECTING. split; [reflexivity | discriminate].
Qed.

Lemma step_paired cfg st ev : paired st -> paired (fst (step cfg st ev)).
Proof.
  unfold paired, step. intros (H1 & H2 & H3).
  destruct (upstream st) as [rs|] eqn:U.
  - destruct st as [u dn]; simpl in *; subst u.
    destruct ev; simpl;
      repeat match goal with
             | |- context [ReadyState_eqb ?a ?b] =>
                 destruct (ReadyState_eqb a b) eqn:?
             end; simpl; auto;
      try (destruct rs, dn; simpl in *;
           repeat split; intros; try discriminate; try congruence;
           try (eexists; split; [reflexivity | discriminate]);
           try (specialize (H2 eq_refl)); try (specialize (H3 eq_refl));
           congruence).
  - destruct ev; simpl; try (rewrite U; auto).
    repeat split; intros; discriminate.
Qed.

Lemma run_from_paired cfg evs : forall st acts,
  paired st -> paired (fst (run_from cfg st acts evs)).
Proof.
  induction evs as [|e evs IH]; intros st acts H; simpl; [exact H|].
  pose proof (step_paired cfg st e H) as H'.
  destruct (step cfg st e) as [st' out]. apply IH. exact H'.
Qed.

Lemma state_after_paired cfg evs : paired (state_after cfg evs).
Proof.
  unfold state_after, run.
  pose proof (connection_paired cfg) as H.
  destruct (connection cfg) as [st acts]. apply run_from_paired. exact H.
Qed.

Lemma step_opens cfg st ev :
  upstream (fst (step cfg st ev)) = Some OPEN ->
  upstream st = Some OPEN \/ In connected_frame (snd (step cfg st ev)).
Proof.
  unfold step. destruct (upstream st) as [rs|] eqn:U.
  - destruct ev; simpl;
      repeat match goal with
             | |- context [ReadyState_eqb ?a ?b] =>
                 destruct (ReadyState_eqb a b) eqn:?
             end; simpl; try rewrite U; auto; try discriminate.
    destruct rs; simpl; auto; discriminate.
  - destruct ev; simpl; rewrite ?U; discriminate.
Qed.

Lemma step_ordered cfg st acts ev :
  ordered st acts ->
  ordered (fst (step cfg st ev)) (acts ++ snd (step cfg st ev)).
Proof.
  intros [Hopen Haudio]. split.
  - intro H. apply step_opens in H. apply in_or_app.
    destruct H as [H|H]; auto.
  - intros pre d m post E.
    apply app_eq_app in E. destruct E as [l [[E1 E2]|[E1 E2]]].
    + destruct l as [|x l].
      * rewrite app_nil_r in E1. subst pre. simpl in E2.
        apply Hopen.
        apply (step_audio cfg st ev d m). rewrite <- E2. left. reflexivity.
      * simpl in E2. injection E2 as E0 E2. subst x.
        apply (Haudio pre d m l). exact E1.
    + subst pre. apply in_or_app. left. apply Hopen.
      apply (step_audio cfg st ev d m). rewrite E2.
      apply in_or_app. right. left. reflexivity.
Qed.

Lemma connection_ordered cfg :
  ordered (fst (connection cfg)) (snd (connection cfg)).
Proof.
  unfold connection.
  destruct (negb (enableGeminiBridge cfg)); simpl;
    [| destruct (String.eqb (geminiApiKey cfg) EmptyString); simpl ];
    (split; [discriminate|]);
    intros pre d m post E;
    repeat (destruct pre as [|? pre]; simpl in E; try discriminate;
            injection E as ? E; try discriminate).
Qed.

Lemma run_from_ordered cfg evs : forall st acts,
  ordered st acts ->
  ordered (fst (run_from cfg st acts evs)) (snd (run_from cfg st acts evs)).
Proof.
  induction evs as [|e evs IH]; intros st acts H; simpl; [exact H|].
  pose proof (step_ordered cfg st acts e H) as H'.
  destruct (step cfg st e) as [st' out]. apply IH. exact H'.
Qed.

Lemma run_ordered cfg evs : ordered (state_after cfg evs) (trace cfg evs).
Proof.
  unfold state_after, trace, run.
  pose proof (connection_ordered cfg) as H.
  destruct (connection cfg) as [st acts]. apply run_from_ordered. exact H.
Qed.

End BridgeFacts.

Section BridgeClaims.
Import Json Bridge.

(** C1, as stated, fails: after the upstream socket has opened and before
    the upstream acknowledged the setup (no [ready] frame was sent
    downstream), an [audio] frame from the browser is forwarded upstream
    instead of being answered with an error frame. *)
Lemma audio_forwarded_before_ready :
  trace sample_config [UpstreamOpen; ClientMessage (Text audio_message)] =
    [ ConnectUp "wss://upstream.example/ws?key=secret";
      SendUp (USetup (buildGeminiSetup sample_config));
      SendDown (DStatus "gemini_connected" None) ]
    ++ [ SendUp (URealtimeAudio (JStr "AAAA") (JStr "audio/pcm;rate=16000")) ]
  /\ ~ In (SendDown DReady)
         [ ConnectUp "wss://upstream.example/ws?key=secret";
           SendUp (USetup (buildGeminiSetup sample_config));
           SendDown (DStatus "gemini_connected" None) ]
  /\ snd (step sample_config (state_after sample_config [UpstreamOpen])
               (ClientMessage (Text audio_message)))
     = [ SendUp (URealtimeAudio (JStr "AAAA") (JStr "audio/pcm;rate=16000")) ].
Proof.
  split; [reflexivity|]. split; [|reflexivity].
  simpl. intros [H|[H|[H|H]]]; try discriminate. exact H.
Qed.

(** C1 (amended): in every session, whatever the events, an [audio] frame is
    forwarded upstream only after the status frame [gemini_connected] was
    sent downstream (that is, after the upstream socket opened); an [audio]
    frame that arrives while the upstream socket is not open is answered
    with the error frame "Gemini upstream not ready." and nothing is sent
    upstream. *)
Theorem audio_only_after_upstream_open (cfg : Config) (evs : list Event) :
  (forall pre d m post,
      trace cfg evs = pre ++ SendUp (URealtimeAudio d m) :: post ->
      In (SendDown (DStatus "gemini_connected" None)) pre)
  /\ (forall rs msg,
         upstream (state_after cfg evs) = Some rs ->
         rs <> OPEN ->
         downstream (state_after cfg evs) <> CLOSED ->
         prop msg "type" = Some (JStr "audio") ->
         step cfg (state_after cfg evs) (ClientMessage (Text msg))
         = (state_after cfg evs,
            [SendDown (DError "Gemini upstream not ready.")])).
Proof.
  split.
  - exact (proj2 (run_ordered cfg evs)).
  - intros rs msg U Hrs Hdn Hty. unfold step. rewrite U.
    destruct (ReadyState_eqb (downstream (state_after cfg evs)) CLOSED) eqn:E.
    + apply ReadyState_eqb_eq in E. contradiction.
    + unfold on_client_message. simpl. rewrite Hty.
      destruct msg; try discriminate. simpl.
      destruct rs; simpl; congruence.
Qed.

Lemma audio_only_after_upstream_open_witness :
  upstream (state_after sample_config []) = Some CONNECTING
  /\ step sample_config (state_after sample_config [])
          (ClientMessage (Text audio_message))
     = (state_after sample_config [],
        [SendDown (DError "Gemini upstream not ready.")]).
Proof.
  split; [reflexivity|].
  apply (proj2 (audio_only_after_upstream_open sample_config [])
               CONNECTING audio_message);
    [reflexivity | discriminate | discriminate | reflexivity].
Defined.

(** C4: in every reachable session state whose downstream connection is
    open, whatever the upstream socket's state, a [ping] frame is answered
    with exactly one [pong] frame sent downstream; nothing is sent upstream
    and the state is unchanged. *)
Theorem ping_yields_one_pong (cfg : Config) (evs : list Event) (msg : value) :
  downstream (state_after cfg evs) = OPEN ->
  prop msg "type" = Some (JStr "ping") ->
  step cfg (state_after cfg evs) (ClientMessage (Text msg))
  = (state_after cfg evs, [SendDown DPong]).
Proof.
  intros Hdn Hty.
  destruct (state_after_paired cfg evs) as (H1 & _ & _).
  destruct (H1 Hdn) as (rs & U & _).
  unfold step. rewrite U, Hdn. simpl.
  unfold on_client_message. simpl. rewrite Hty.
  destruct msg; try discriminate. reflexivity.
Qed.

Lemma ping_yields_one_pong_witness :
  downstream (state_after sample_config [UpstreamOpen; UpstreamError]) = OPEN
  /\ step sample_config (state_after sample_config [UpstreamOpen; UpstreamError])
          (ClientMessage (Text ping_message))
     = (state_after sample_config [UpstreamOpen; UpstreamError],
        [SendDown DPong]).
Proof.
  split; [reflexivity|].
  apply (ping_yields_one_pong sample_config [UpstreamOpen; UpstreamError]
                              ping_message); reflexivity.
Defined.

(** C5: when the upstream socket closes with code [c] and reason [r] while
    the downstream connection is open, the bridge first sends downstream
    the status frame [gemini_closed] carrying [c] and [r], and then closes
    the downstream connection with the fixed code 1011. *)
Theorem upstream_close_notifies_then_closes
        (cfg : Config) (evs : list Event) (c : Z) (r : string) :
  downstream (state_after cfg evs) = OPEN ->
  step cfg (state_after cfg evs) (UpstreamClose c r)
  = ({| upstream := Some CLOSED; downstream := CLOSING |},
     [ SendDown (DStatus "gemini_closed" (Some (c, r)));
       CloseDown 1011 "Gemini upstream closed" ]).
Proof.
  intros Hdn.
  destruct (state_after_paired cfg evs) as (H1 & _ & _).
  destruct (H1 Hdn) as (rs & U & Hrs).
  unfold step. rewrite U, Hdn.
  destruct (ReadyState_eqb rs CLOSED) eqn:E.
  - apply ReadyState_eqb_eq in E. contradiction.
  - reflexivity.
Qed.

Lemma upstream_close_notifies_then_closes_witness :
  downstream (state_after sample_config [UpstreamOpen]) = OPEN
  /\ step sample_config (state_after sample_config [UpstreamOpen])
          (UpstreamClose 1000 "done")
     = ({| upstream := Some CLOSED; downstream := CLOSING |},
        [ SendDown (DStatus "gemini_closed" (Some (1000, "done"%string)));
          CloseDown 1011 "Gemini upstream closed" ]).
Proof.
  split; [reflexivity|].
  apply (upstream_close_notifies_then_closes sample_config [UpstreamOpen]
                                             1000 "done");
    reflexivity.
Defined.

Lemma run_from_rejected cfg evs : forall st acts,
  upstream st = None ->
  snd (run_from cfg st acts evs) = acts.
Proof.
  induction evs as [|e evs IH]; intros st acts U; simpl; [reflexivity|].
  unfold step. rewrite U.
  destruct e; simpl; rewrite IH, ?app_nil_r; auto.
Qed.

(** C6: when the bridge is disabled, the whole session, whatever events
    follow the connection, consists of the error frame "Gemini bridge is
    disabled." sent downstream and the close of the downstream socket with
    code 1013; no upstream connection is attempted and nothing is sent
    upstream. *)
Theorem disabled_bridge_rejects (cfg : Config) (evs : list Event) :
  enableGeminiBridge cfg = false ->
  trace cfg evs
  = [ SendDown (DError "Gemini bridge is disabled.");
      CloseDown 1013 "Gemini bridge disabled" ]
  /\ (forall url, ~ In (ConnectUp url) (trace cfg evs))
  /\ (forall f, ~ In (SendUp f) (trace cfg evs)).
Proof.
  intro Hoff.
  assert (E : trace cfg evs
              = [ SendDown (DError "Gemini bridge is disabled.");
                  CloseDown 1013 "Gemini bridge disabled" ]).
  { unfold trace, run, connection. rewrite Hoff. simpl.
    apply run_from_rejected. reflexivity. }
  rewrite E. repeat split; try reflexivity;
    intros x [H|[H|H]]; try discriminate; exact H.
Qed.

Lemma disabled_bridge_rejects_witness :
  trace disabled_config [ClientMessage (Text audio_message); ClientClose]
  = [ SendDown (DError "Gemini bridge is disabled.");
      CloseDown 1013 "Gemini bridge disabled" ].
Proof.
  exact (proj1 (disabled_bridge_rejects disabled_config
                  [ClientMessage (Text audio_message); ClientClose] eq_refl)).
Defined.

(** C7: while the upstream socket is open, an [audio] frame without a
    [data] field is answered with exactly the error frame "audio data
    missing."; nothing is sent upstream and the session state is
    unchanged. *)
Theorem audio_data_missing (cfg : Config) (evs : list Event) (msg : value) :
  upstream (state_after cfg evs) = Some OPEN ->
  prop msg "type" = Some (JStr "audio") ->
  prop msg "data" = None ->
  step cfg (state_after cfg evs) (ClientMessage (Text msg))
  = (state_after cfg evs, [SendDown (DError "audio data missing.")]).
Proof.
  intros U Hty Hdata.
  destruct (state_after_paired cfg evs) as (_ & H2 & _).
  pose proof (H2 U) as Hdn.
  unfold step. rewrite U, Hdn. simpl.
  unfold on_client_message. simpl. rewrite Hty, Hdata.
  destruct msg; try discriminate. reflexivity.
Qed.

Lemma audio_data_missing_witness :
  upstream (state_after sample_config [UpstreamOpen]) = Some OPEN
  /\ step sample_config (state_after sample_config [UpstreamOpen])
          (ClientMessage (Text audio_without_data))
     = (state_after sample_config [UpstreamOpen],
        [SendDown (DError "audio data missing.")]).
Proof.
  split; [reflexivity|].
  apply (audio_data_missing sample_config [UpstreamOpen] audio_without_data);
    reflexivity.
Defined.

(** ** Further properties of the bridge *)

(** X1, missing credential: with the bridge enabled and no API key, the whole
    session consists of the error frame "GEMINI_API_KEY is not configured."
    and the close of the downstream socket with code 1013; no upstream
    connection is attempted. *)
Theorem missing_credential_rejects (cfg : Config) (evs : list Event) :
  enableGeminiBridge cfg = true ->
  geminiApiKey cfg = EmptyString ->
  trace cfg evs
  = [ SendDown (DError "GEMINI_API_KEY is not configured.");
      CloseDown 1013 "Missing API key" ].
Proof.
  intros Hon Hkey. unfold trace, run, connection. rewrite Hon, Hkey. simpl.
  apply run_from_rejected. reflexivity.
Qed.

Lemma missing_credential_rejects_witness :
  trace keyless_config [UpstreamOpen; ClientMessage (Text ping_message)]
  = [ SendDown (DError "GEMINI_API_KEY is not configured.");
      CloseDown 1013 "Missing API key" ].
Proof.
  exact (missing_credential_rejects keyless_config
           [UpstreamOpen; ClientMessage (Text ping_message)] eq_refl eq_refl).
Defined.

(** X2, unknown frame tag: while the upstream socket is open, a frame whose
    [type] is truthy and is none of [ping], [audio], [audioStreamEnd], [text]
    is answered with the error frame naming that type; nothing is sent
    upstream, no socket is closed and the state is unchanged. *)
Theorem unknown_type_is_answered (cfg : Config) (evs : list Event)
        (msg type : value) :
  upstream (state_after cfg evs) = Some OPEN ->
  prop msg "type" = Some type ->
  truthy type = true ->
  is_string type "ping" = false ->
  is_string type "audio" = false ->
  is_string type "audioStreamEnd" = false ->
  is_string type "text" = false ->
  step cfg (state_after cfg evs) (ClientMessage (Text msg))
  = (state_after cfg evs, [SendDown (DUnknownType type)]).
Proof.
  intros U Hty Ht H1 H2 H3 H4.
  destruct (state_after_paired cfg evs) as (_ & Hopen & _).
  pose proof (Hopen U) as Hdn.
  unfold step. rewrite U, Hdn. simpl.
  unfold on_client_message. simpl. rewrite Hty.
  destruct msg; try discriminate. simpl.
  now rewrite Ht, H1, H2, H3, H4.
Qed.

Lemma unknown_type_is_answered_witness :
  step sample_config (state_after sample_config [UpstreamOpen])
       (ClientMessage (Text (JObj [("type"%string, JStr "video")])))
  = (state_after sample_config [UpstreamOpen],
     [SendDown (DUnknownType (JStr "video"))]).
Proof.
  apply (unknown_type_is_answered sample_config [UpstreamOpen]
           (JObj [("type"%string, JStr "video")]) (JStr "video"));
    reflexivity.
Defined.

(** X3, upstream frames: a parsed upstream frame is forwarded downstream inside
    the [gemini] envelope; when it has a [setupComplete] property the [ready]
    frame is sent first.  A frame that does not parse is dropped. *)
Theorem upstream_frame_is_wrapped (cfg : Config) (evs : list Event)
        (message : value) :
  upstream (state_after cfg evs) = Some OPEN ->
  truthy message = true ->
  step cfg (state_after cfg evs) (UpstreamMessage (Text message))
  = (state_after cfg evs,
     if hasOwnProperty message "setupComplete"
     then [SendDown DReady; SendDown (DGemini message)]
     else [SendDown (DGemini message)])
  /\ step cfg (state_after cfg evs) (UpstreamMessage Malformed)
     = (state_after cfg evs, []).
Proof.
  intros U Ht. unfold step. rewrite U. simpl.
  unfold on_upstream_message. simpl. rewrite Ht. simpl.
  destruct (hasOwnProperty message "setupComplete"); split; reflexivity.
Qed.

Lemma upstream_frame_is_wrapped_witness :
  step sample_config (state_after sample_config [UpstreamOpen])
       (UpstreamMessage (Text (JObj [("setupComplete"%string, JObj [])])))
  = (state_after sample_config [UpstreamOpen],
     [ SendDown DReady;
       SendDown (DGemini (JObj [("setupComplete"%string, JObj [])])) ]).
Proof.
  exact (proj1 (upstream_frame_is_wrapped sample_config [UpstreamOpen]
                  (JObj [("setupComplete"%string, JObj [])])
                  eq_refl eq_refl)).
Defined.

(** *** One setup frame per session *)

Lemma client_message_up_frames (rs : ReadyState) (data : RawData) :
  upstream_frames (on_client_message rs data) = []
  \/ (rs = OPEN
      /\ exists f, upstream_frames (on_client_message rs data) = [SendUp f]
                   /\ is_setup (SendUp f) = false).
Proof.
  unfold on_client_message, invalid_client_message.
  destruct (parseJson data) as [message|]; [|left; reflexivity].
  destruct (negb (truthy message)); [left; reflexivity|].
  destruct (prop message "type") as [type|]; [|left; reflexivity].
  destruct (negb (truthy type)); [left; reflexivity|].
  destruct (is_string type "ping"); [left; reflexivity|].
  destruct rs; simpl; try (left; reflexivity).
  destruct (is_string type "audio").
  { destruct (prop message "data") as [d|]; [|left; reflexivity].
    destruct (negb (truthy d)); [left; reflexivity|].
    right. split; [reflexivity|]. eexists. split; reflexivity. }
  destruct (is_string type "audioStreamEnd").
  { right. split; [reflexivity|]. eexists. split; reflexivity. }
  destruct (is_string type "text").
  { right. split; [reflexivity|]. eexists. split; reflexivity. }
  left. reflexivity.
Qed.

Lemma setup_sent_snoc (cfg : Config) (ups : list Action) (f : UpFrame) :
  setup_sent cfg ups -> is_setup (SendUp f) = false ->
  setup_sent cfg (ups ++ [SendUp f]).
Proof.
  intros (rest & -> & Hrest) Hf. exists (rest ++ [SendUp f]). split.
  - reflexivity.
  - rewrite filter_app, Hrest. simpl in *. now rewrite Hf.
Qed.

Lemma upstream_message_up_frames (data : RawData) :
  upstream_frames (on_upstream_message data) = [].
Proof.
  unfold on_upstream_message.
  destruct (parseJson data) as [message|]; [|reflexivity].
  destruct (negb (truthy message)); [reflexivity|].
  destruct (hasOwnProperty message "setupComplete"); reflexivity.
Qed.

Lemma step_setup_discipline cfg st acts ev :
  setup_discipline cfg st acts ->
  setup_discipline cfg (fst (step cfg st ev)) (acts ++ snd (step cfg st ev)).
Proof.
  unfold setup_discipline, step, upstream_frames.
  destruct st as [[rs|] dn]; cbn [upstream downstream]; intro H.
  - destruct ev; cbn [fst snd].
    + destruct rs; cbn [ReadyState_eqb fst snd upstream];
        rewrite ?app_nil_r; auto.
      rewrite filter_app, H. cbn. exists []. split; reflexivity.
    + destruct rs; cbn [ReadyState_eqb orb fst snd upstream];
        rewrite ?app_nil_r; auto;
        rewrite filter_app; fold (upstream_frames (on_upstream_message data));
        rewrite upstream_message_up_frames, app_nil_r; exact H.
    + destruct rs; cbn [ReadyState_eqb fst snd upstream];
        rewrite ?app_nil_r; auto;
        rewrite filter_app; cbn; rewrite app_nil_r; auto.
    + destruct rs; cbn [ReadyState_eqb fst snd upstream];
        rewrite ?app_nil_r; auto;
        rewrite filter_app; cbn; rewrite app_nil_r; auto.
    + destruct (ReadyState_eqb dn CLOSED); cbn [fst snd upstream];
        rewrite ?app_nil_r; auto.
      rewrite filter_app. fold (upstream_frames (on_client_message rs data)).
      destruct (client_message_up_frames rs data) as [E | (-> & f & E & Hf)];
        rewrite E.
      * rewrite app_nil_r. exact H.
      * now apply setup_sent_snoc.
    + destruct (ReadyState_eqb dn CLOSED); cbn [fst snd upstream];
        rewrite ?app_nil_r; auto.
      rewrite filter_app.
      destruct rs; cbn; rewrite app_nil_r; auto.
    + cbn [upstream]. rewrite app_nil_r. exact H.
  - destruct ev; cbn [fst snd upstream]; rewrite app_nil_r; exact H.
Qed.

Lemma connection_setup_discipline cfg :
  setup_discipline cfg (fst (connection cfg)) (snd (connection cfg)).
Proof.
  unfold connection, setup_discipline.
  destruct (negb (enableGeminiBridge cfg)); [reflexivity|].
  destruct (String.eqb (geminiApiKey cfg) EmptyString); reflexivity.
Qed.

Lemma run_from_setup_discipline cfg evs : forall st acts,
  setup_discipline cfg st acts ->
  setup_discipline cfg (fst (run_from cfg st acts evs))
                   (snd (run_from cfg st acts evs)).
Proof.
  induction evs as [|e evs IH]; intros st acts H; simpl; [exact H|].
  pose proof (step_setup_discipline cfg st acts e H) as H'.
  destruct (step cfg st e) as [st' out]. apply IH. exact H'.
Qed.

(** X4: in every session the frames sent upstream are either none, or the setup
    frame built from the configuration followed by frames that are not setup
    frames: exactly one setup frame is sent, before any other frame. *)
Theorem one_setup_frame_first (cfg : Config) (evs : list Event) :
  upstream_frames (trace cfg evs) = []
  \/ exists rest,
       upstream_frames (trace cfg evs)
       = SendUp (USetup (buildGeminiSetup cfg)) :: rest
       /\ forall s, ~ In (SendUp (USetup s)) rest.
Proof.
  assert (H : setup_discipline cfg (state_after cfg evs) (trace cfg evs)).
  { unfold state_after, trace, run.
    pose proof (connection_setup_discipline cfg) as H.
    destruct (connection cfg) as [st acts].
    now apply run_from_setup_discipline. }
  assert (G : upstream_frames (trace cfg evs) = []
              \/ setup_sent cfg (upstream_frames (trace cfg evs))).
  { unfold setup_discipline in H.
    destruct (upstream (state_after cfg evs)) as [[| | |]|]; auto. }
  destruct G as [G | (rest & E & Hrest)]; [left; exact G|].
  right. exists rest. split; [exact E|].
  intros s Hin.
  assert (Hf : In (SendUp (USetup s)) (filter is_setup rest)).
  { apply filter_In. split; [exact Hin | reflexivity]. }
  rewrite Hrest in Hf. contradiction.
Qed.

End BridgeClaims.



(** ** Playback *)

Section PlaybackClaims.
Import Playback.
Local Open Scope Q_scope.

Lemma Math_max_l (a b : Q) : b <= a -> Math_max a b == a.
Proof.
  intro H. unfold Math_max.
  destruct (Qle_bool a b) eqn:E; [|reflexivity].
  apply Qle_bool_iff in E. lra.
Qed.

Lemma step_tracked rate st ev :
  tracked_with_context st -> tracked_with_context (fst (step rate st ev)).
Proof.
  unfold tracked_with_context. intro H.
  destruct ev as [base64 now|source|now]; simpl.
  - unfold playGeminiAudio.
    destruct (Pcm.decodeBase64ToInt16 base64) as [[|x l]|]; simpl; auto.
  - intro Hne. apply H. intro E. rewrite E in Hne. simpl in Hne. congruence.
  - congruence.
Qed.

Lemma playing_has_context rate evs :
  tracked_with_context (state_after rate evs).
Proof.
  unfold state_after.
  assert (H : tracked_with_context initial) by (intro H; contradiction H; reflexivity).
  revert H. generalize initial.
  induction evs as [|e evs IH]; intros st H; simpl; [exact H|].
  apply IH. apply step_tracked. exact H.
Qed.

(** C8: when an interruption arrives while the audio context exists (it is
    created by the first chunk played), [stopGeminiPlayback] stops every
    tracked source, empties the tracking set and sets the cursor to the
    clock's reading [now]; a buffer scheduled afterwards at a reading
    [now' >= now] starts exactly one lead-in after [now'], hence within one
    lead-in interval of it. *)
Theorem interruption_flushes_playback (st : State) (now : Q) :
  geminiAudioContext st = true ->
  (forall source, In source (geminiPlaying st) ->
                  In (Stop source) (snd (stopGeminiPlayback now st)))
  /\ (forall e, In e (snd (stopGeminiPlayback now st)) ->
                exists source, e = Stop source /\ In source (geminiPlaying st))
  /\ geminiPlaying (fst (stopGeminiPlayback now st)) = []
  /\ geminiOutputTime (fst (stopGeminiPlayback now st)) = now
  /\ (forall now' duration,
         now <= now' ->
         exists startAt,
           snd (schedule now' duration (fst (stopGeminiPlayback now st)))
           = [Start (created st) startAt]
           /\ startAt == now' + leadIn (fst (stopGeminiPlayback now st))
           /\ now' <= startAt
           /\ startAt <= now' + leadIn (fst (stopGeminiPlayback now st))).
Proof.
  intro Hctx. simpl. rewrite Hctx.
  split; [|split; [|split; [|split]]]; try reflexivity.
  - intros source H. apply in_map. exact H.
  - intros e H. apply in_map_iff in H. destruct H as (source & <- & H).
    exists source. split; [reflexivity | exact H].
  - intros now' duration Hle.
    unfold schedule, leadIn. simpl.
    eexists. split; [reflexivity|].
    assert (E : Math_max (now' + (2 # 10)) now == now' + (2 # 10)).
    { apply Math_max_l. lra. }
    split; [exact E|]. rewrite E. split; lra.
Qed.

Lemma interruption_flushes_playback_witness :
  geminiPlaying (state_after 24000 [Chunk "QUJDRA==" 1]) = [O]
  /\ snd (stopGeminiPlayback 2 (state_after 24000 [Chunk "QUJDRA==" 1])) = [Stop O]
  /\ geminiOutputTime
       (fst (stopGeminiPlayback 2 (state_after 24000 [Chunk "QUJDRA==" 1]))) = 2
  /\ exists startAt,
       snd (schedule 3 1
              (fst (stopGeminiPlayback 2 (state_after 24000 [Chunk "QUJDRA==" 1]))))
       = [Start 1%nat startAt]
       /\ startAt == 3 + (2 # 10).
Proof.
  split; [reflexivity|]. split; [reflexivity|]. split; [reflexivity|].
  destruct (interruption_flushes_playback
              (state_after 24000 [Chunk "QUJDRA==" 1]) 2 eq_refl)
    as (_ & _ & _ & _ & H).
  destruct (H 3 1) as (startAt & E1 & E2 & _).
  - discriminate.
  - exists startAt. split; [exact E1 | exact E2].
Defined.

(** X5, the timeline: a buffer starts no earlier than one lead-in after the clock
    reading and no earlier than the cursor; the cursor then stands at the end
    of the buffer, so it never moves back when the duration is not negative,
    and a buffer scheduled while the cursor is ahead of the clock starts
    exactly where the previous one ends. *)
Theorem schedule_follows_cursor (now duration : Q) (st : State) :
  0 <= duration ->
  exists startAt,
    snd (schedule now duration st) = [Start (created st) startAt]
    /\ now + leadIn st <= startAt
    /\ geminiOutputTime st <= startAt
    /\ geminiOutputTime (fst (schedule now duration st)) == startAt + duration
    /\ geminiOutputTime st <= geminiOutputTime (fst (schedule now duration st))
    /\ (now + leadIn st <= geminiOutputTime st -> startAt = geminiOutputTime st).
Proof.
  intro Hd. unfold schedule. simpl. eexists. split; [reflexivity|].
  unfold Math_max.
  destruct (Qle_bool (now + leadIn st) (geminiOutputTime st)) eqn:E.
  - apply Qle_bool_iff in E.
    split; [lra|]. split; [lra|]. split; [reflexivity|]. split; [lra|].
    reflexivity.
  - assert (geminiOutputTime st < now + leadIn st).
    { apply Qnot_le_lt. intro Hle. apply Qle_bool_iff in Hle. congruence. }
    split; [lra|]. split; [lra|]. split; [reflexivity|]. split; [lra|].
    intro Hle. lra.
Qed.

Lemma schedule_follows_cursor_witness :
  exists startAt,
    snd (schedule 1 (1 # 2) (state_after 24000 [Chunk "QUJDRA==" 1]))
    = [Start 1%nat startAt]
    /\ startAt
       = geminiOutputTime (state_after 24000 [Chunk "QUJDRA==" 1]).
Proof.
  destruct (schedule_follows_cursor 1 (1 # 2)
              (state_after 24000 [Chunk "QUJDRA==" 1]))
    as (startAt & E & _ & _ & _ & _ & H); [discriminate|].
  exists startAt. split; [exact E|]. apply H. discriminate.
Defined.

End PlaybackClaims.

(** ** PCM16 and base64 *)

Section PcmFacts.
Import Pcm.

Ltac euclid :=
  unfold is_byte, is_sextet in *; Z.to_euclidean_division_equations; lia.

Ltac chars_eq :=
  repeat match goal with |- _ :: _ = _ :: _ => f_equal end;
  try reflexivity; (f_equal; euclid).

Ltac list_eq :=
  repeat match goal with |- _ :: _ = _ :: _ => f_equal end;
  try reflexivity; euclid.

(** Induction three elements at a time, as the encoder consumes bytes. *)
Lemma list_ind3 {A : Type} (P : list A -> Prop) :
  P [] -> (forall a, P [a]) -> (forall a b, P [a; b]) ->
  (forall a b c l, P l -> P (a :: b :: c :: l)) ->
  forall l, P l.
Proof.
  intros H0 H1 H2 H3. fix IH 1.
  intros [|a [|b [|c l]]];
    [apply H0 | apply H1 | apply H2 | apply H3; apply IH].
Qed.

Lemma list_ind2 {A : Type} (P : list A -> Prop) :
  P [] -> (forall a, P [a]) ->
  (forall a b l, P l -> P (a :: b :: l)) ->
  forall l, P l.
Proof.
  intros H0 H1 H2. fix IH 1.
  intros [|a [|b l]]; [apply H0 | apply H1 | apply H2; apply IH].
Qed.

(** *** Characters and bytes *)

Lemma charCodeAt_byte (c : ascii) : is_byte (charCodeAt c).
Proof.
  unfold is_byte, charCodeAt. pose proof (N_ascii_bounded c). lia.
Qed.

Lemma fromCharCode_charCodeAt (c : ascii) : fromCharCode (charCodeAt c) = c.
Proof.
  unfold fromCharCode, charCodeAt. rewrite N2Z.id. apply ascii_N_embedding.
Qed.

Lemma charCodeAt_fromCharCode (b : Z) :
  is_byte b -> charCodeAt (fromCharCode b) = b.
Proof.
  unfold is_byte, fromCharCode, charCodeAt. intro H.
  rewrite N_ascii_embedding by lia. lia.
Qed.

Lemma bytes_of_binary (binary : string) :
  Forall is_byte (map charCodeAt (list_ascii_of_string binary)).
Proof.
  apply Forall_forall. intros b H. apply in_map_iff in H.
  destruct H as (c & <- & _). apply charCodeAt_byte.
Qed.

Lemma map_fromCharCode_charCodeAt (l : list ascii) :
  map fromCharCode (map charCodeAt l) = l.
Proof.
  induction l as [|c l IH]; simpl; [reflexivity|].
  now rewrite fromCharCode_charCodeAt, IH.
Qed.

Lemma map_charCodeAt_fromCharCode (l : list Z) :
  Forall is_byte l -> map charCodeAt (map fromCharCode l) = l.
Proof.
  induction 1 as [|b l Hb _ IH]; simpl; [reflexivity|].
  now rewrite charCodeAt_fromCharCode, IH.
Qed.

(** *** The alphabet *)

Lemma table_check : forallb table_ok (map Z.of_nat (seq 0 64)) = true.
Proof. vm_compute. reflexivity. Qed.

Lemma table_ok_all (i : Z) : is_sextet i -> table_ok i = true.
Proof.
  intro H. eapply forallb_forall; [apply table_check|].
  replace i with (Z.of_nat (Z.to_nat i)) by (unfold is_sextet in H; lia).
  apply in_map. apply in_seq. unfold is_sextet in H. lia.
Qed.

Lemma b64_index_char (i : Z) : is_sextet i -> b64_index (b64_char i) = Some i.
Proof.
  intro H. apply table_ok_all in H. unfold table_ok in H.
  apply andb_prop in H. destruct H as [H _].
  apply andb_prop in H. destruct H as [H _].
  destruct (b64_index (b64_char i)) as [j|]; [|discriminate].
  apply Z.eqb_eq in H. now subst.
Qed.

Lemma b64_char_not_space (i : Z) :
  is_sextet i -> is_ascii_whitespace (b64_char i) = false.
Proof.
  intro H. apply table_ok_all in H. unfold table_ok in H.
  apply andb_prop in H. destruct H as [H _].
  apply andb_prop in H. destruct H as [_ H].
  now apply negb_true_iff in H.
Qed.

Lemma b64_char_not_pad (i : Z) :
  is_sextet i -> Ascii.eqb (b64_char i) pad_char = false.
Proof.
  intro H. apply table_ok_all in H. unfold table_ok in H.
  apply andb_prop in H. destruct H as [_ H].
  now apply negb_true_iff in H.
Qed.

(** *** The encoder: sextets, then padding *)

Lemma encode_bytes_split (bytes : list Z) :
  encode_bytes bytes = map b64_char (to_sextets bytes) ++ padding bytes.
Proof.
  induction bytes as [| a | a b | a b c l IH] using list_ind3;
    try reflexivity.
  cbn [encode_bytes to_sextets padding map app]. now rewrite IH.
Qed.

Lemma to_sextets_range (bytes : list Z) :
  Forall is_byte bytes -> Forall is_sextet (to_sextets bytes).
Proof.
  induction bytes as [| a | a b | a b c l IH] using list_ind3; intro H.
  - constructor.
  - inversion_clear H. repeat constructor; euclid.
  - inversion_clear H as [|? ? Ha H']. inversion_clear H' as [|? ? Hb _].
    repeat constructor; euclid.
  - inversion_clear H as [|? ? Ha H']. inversion_clear H' as [|? ? Hb H''].
    inversion_clear H'' as [|? ? Hc Hl].
    cbn [to_sextets]. repeat (constructor; [euclid|]). auto.
Qed.

Lemma decode_to_sextets (bytes : list Z) :
  Forall is_byte bytes -> decode_sextets (to_sextets bytes) = bytes.
Proof.
  induction bytes as [| a | a b | a b c l IH] using list_ind3; intro H.
  - reflexivity.
  - inversion_clear H. cbn [to_sextets decode_sextets]. list_eq.
  - inversion_clear H as [|? ? Ha H']. inversion_clear H' as [|? ? Hb _].
    cbn [to_sextets decode_sextets]. list_eq.
  - inversion_clear H as [|? ? Ha H']. inversion_clear H' as [|? ? Hb H''].
    inversion_clear H'' as [|? ? Hc Hl].
    cbn [to_sextets decode_sextets]. rewrite (IH Hl). list_eq.
Qed.

Lemma encode_bytes_length (bytes : list Z) :
  exists k, List.length (encode_bytes bytes) = (4 * k)%nat.
Proof.
  induction bytes as [| a | a b | a b c l [k IH]] using list_ind3.
  - exists O. reflexivity.
  - exists 1%nat. reflexivity.
  - exists 1%nat. reflexivity.
  - exists (S k). cbn [encode_bytes List.length]. rewrite IH. lia.
Qed.

Lemma to_sextets_length (bytes : list Z) :
  exists k r, List.length (to_sextets bytes) = (4 * k + r)%nat
              /\ (r = 0 \/ r = 2 \/ r = 3)%nat.
Proof.
  induction bytes as [| a | a b | a b c l (k & r & IH & Hr)] using list_ind3.
  - exists O, O. auto.
  - exists O, 2%nat. auto.
  - exists O, 3%nat. auto.
  - exists (S k), r. cbn [to_sextets List.length]. rewrite IH. split; [lia|auto].
Qed.

(** *** The decoder on an encoded string *)

Lemma sextets_chars (s : list Z) :
  Forall is_sextet s -> sextets (map b64_char s) = Some s.
Proof.
  induction 1 as [|i s Hi _ IH]; simpl; [reflexivity|].
  now rewrite (b64_index_char i Hi), IH.
Qed.

Lemma filter_all {A : Type} (f : A -> bool) (l : list A) :
  (forall x, In x l -> f x = true) -> filter f l = l.
Proof.
  induction l as [|x l IH]; intro H; simpl; [reflexivity|].
  rewrite (H x (or_introl eq_refl)). f_equal. apply IH.
  intros y Hy. apply H. now right.
Qed.

Lemma padding_is_padding (bytes : list Z) : is_padding (padding bytes).
Proof.
  unfold is_padding.
  induction bytes as [| a | a b | a b c l IH] using list_ind3; simpl; auto.
Qed.

Lemma encoded_no_space (s : list Z) (p : list ascii) :
  Forall is_sextet s -> is_padding p ->
  filter (fun c => negb (is_ascii_whitespace c)) (map b64_char s ++ p)
  = map b64_char s ++ p.
Proof.
  intros Hs Hp. apply filter_all. intros c Hc.
  apply in_app_or in Hc. destruct Hc as [Hc|Hc].
  - apply in_map_iff in Hc. destruct Hc as (i & <- & Hi).
    rewrite b64_char_not_space; [reflexivity|].
    rewrite Forall_forall in Hs. now apply Hs.
  - destruct Hp as [-> | [-> | ->]]; simpl in Hc;
      repeat (destruct Hc as [<-|Hc]; [reflexivity|]); contradiction.
Qed.

Lemma strip_padding_encoded (s : list Z) (p : list ascii) :
  Forall is_sextet s -> is_padding p ->
  strip_padding (map b64_char s ++ p) = map b64_char s.
Proof.
  intros Hs Hp. unfold strip_padding.
  rewrite rev_app_distr, <- map_rev.
  assert (Hr : Forall is_sextet (rev s)).
  { apply Forall_forall. intros x Hx. rewrite Forall_forall in Hs.
    apply Hs. now apply in_rev. }
  assert (Hback : rev (map b64_char (rev s)) = map b64_char s).
  { now rewrite <- map_rev, rev_involutive. }
  destruct Hp as [-> | [-> | ->]]; cbn [rev app].
  - rewrite app_nil_r.
    destruct (rev s) as [|x [|y r]] eqn:E; cbn [map].
    + reflexivity.
    + inversion_clear Hr as [|? ? Hx _]. now rewrite (b64_char_not_pad x Hx).
    + inversion_clear Hr as [|? ? Hx _]. now rewrite (b64_char_not_pad x Hx).
  - destruct (rev s) as [|x r] eqn:E; cbn [map app].
    + rewrite Ascii.eqb_refl. now rewrite <- Hback.
    + inversion_clear Hr as [|? ? Hx _].
      rewrite Ascii.eqb_refl, (b64_char_not_pad x Hx). exact Hback.
  - cbn [map app]. rewrite !Ascii.eqb_refl. exact Hback.
Qed.

(** [atob] inverts [btoa]. *)
Lemma atob_btoa (binary : string) : atob (btoa binary) = Some binary.
Proof.
  unfold atob, btoa.
  rewrite list_ascii_of_string_of_list_ascii.
  pose proof (bytes_of_binary binary) as Hb.
  set (bytes := map charCodeAt (list_ascii_of_string binary)) in *.
  pose proof (to_sextets_range bytes Hb) as Hs.
  pose proof (padding_is_padding bytes) as Hp.
  destruct (encode_bytes_length bytes) as [k Hk].
  rewrite encode_bytes_split in *.
  rewrite (encoded_no_space _ _ Hs Hp).
  rewrite Hk.
  replace (Nat.modulo (4 * k) 4 =? 0)%nat with true
    by (symmetry; apply Nat.eqb_eq; rewrite Nat.mul_comm; apply Nat.Div0.mod_mul).
  rewrite (strip_padding_encoded _ _ Hs Hp).
  destruct (to_sextets_length bytes) as (k' & r & Hl & Hr).
  rewrite length_map, Hl.
  replace (Nat.modulo (4 * k' + r) 4 =? 1)%nat with false.
  - rewrite (sextets_chars _ Hs), (decode_to_sextets _ Hb).
    unfold bytes. rewrite map_fromCharCode_charCodeAt.
    now rewrite string_of_list_ascii_of_string.
  - symmetry. apply Nat.eqb_neq.
    rewrite Nat.add_comm, Nat.mul_comm, Nat.Div0.mod_add.
    destruct Hr as [-> | [-> | ->]]; discriminate.
Qed.

(** *** Samples and bytes *)

Lemma string_length_list (s : string) :
  String.length s = List.length (list_ascii_of_string s).
Proof. induction s as [|c s IH]; simpl; [reflexivity | now rewrite IH]. Qed.

Lemma half_SS (n : nat) : Nat.div (S (S n)) 2 = S (Nat.div n 2).
Proof.
  change (S (S n)) with (1 * 2 + n)%nat.
  rewrite Nat.div_add_l by discriminate. reflexivity.
Qed.

Lemma read_samples_shift (a b : Z) (bytes : list Z) (todo : nat) : forall i,
  read_samples (a :: b :: bytes) (S i) todo = read_samples bytes i todo.
Proof.
  induction todo as [|todo IH]; intro i; [reflexivity|].
  cbn [read_samples]. rewrite IH. reflexivity.
Qed.

(** The reads of the loop stay inside the buffer. *)
Lemma read_loop_samples (bytes : list Z) :
  read_samples bytes 0 (Int16Array_length (List.length bytes))
  = Some (samples_of_bytes bytes).
Proof.
  unfold Int16Array_length.
  induction bytes as [| a | a b l IH] using list_ind2; try reflexivity.
  cbn [List.length]. rewrite half_SS. cbn [read_samples samples_of_bytes].
  rewrite read_samples_shift, IH. reflexivity.
Qed.

Lemma samples_of_bytes_length (bytes : list Z) :
  List.length (samples_of_bytes bytes) = Nat.div (List.length bytes) 2.
Proof.
  induction bytes as [| a | a b l IH] using list_ind2; try reflexivity.
  cbn [List.length samples_of_bytes]. now rewrite half_SS, IH.
Qed.

Lemma samples_of_bytes_nth (bytes : list Z) : forall i,
  (i < List.length (samples_of_bytes bytes))%nat ->
  nth i (samples_of_bytes bytes) 0
  = ToInt16 (nth (2 * i) bytes 0 + 256 * nth (2 * i + 1) bytes 0).
Proof.
  induction bytes as [| a | a b l IH] using list_ind2; intros i Hi;
    try (simpl in Hi; lia).
  destruct i as [|i]; [reflexivity|].
  cbn [samples_of_bytes List.length] in Hi.
  replace (2 * S i)%nat with (S (S (2 * i))) by lia.
  cbn [samples_of_bytes nth Nat.add]. apply IH. lia.
Qed.

Lemma setInt16_ToInt16 (a b : Z) :
  is_byte a -> is_byte b -> setInt16 (ToInt16 (a + 256 * b)) = [a; b].
Proof.
  intros Ha Hb. unfold setInt16, ToInt16.
  destruct ((a + 256 * b) mod 65536 >=? 32768) eqn:E; list_eq.
Qed.

Lemma write_loop_bytes (bytes : list Z) :
  Forall is_byte bytes ->
  Nat.even (List.length bytes) = true ->
  flat_map setInt16 (samples_of_bytes bytes) = bytes.
Proof.
  induction bytes as [| a | a b l IH] using list_ind2; intros Hb He.
  - reflexivity.
  - discriminate.
  - inversion_clear Hb as [|? ? Ha H']. inversion_clear H' as [|? ? Hb Hl].
    cbn [samples_of_bytes flat_map].
    rewrite (setInt16_ToInt16 a b Ha Hb), (IH Hl He). reflexivity.
Qed.

Lemma chunk_positive : (0 < chunk)%nat.
Proof.
  unfold chunk. apply Nat.neq_0_lt_0. apply Nat.pow_nonzero. discriminate.
Qed.

Lemma concat_chunks_all (fuel : nat) : forall bytes,
  (List.length bytes <= fuel)%nat ->
  concat_chunks fuel bytes = map fromCharCode bytes.
Proof.
  induction fuel as [|fuel IH]; intros bytes Hlen.
  - destruct bytes; [reflexivity | simpl in Hlen; lia].
  - cbn [concat_chunks]. destruct bytes as [|b l] eqn:E; [reflexivity|].
    rewrite <- E in *. rewrite IH.
    + now rewrite <- map_app, firstn_skipn.
    + rewrite length_skipn. pose proof chunk_positive.
      assert (0 < List.length bytes)%nat by (subst bytes; simpl; lia). lia.
Qed.

(** Re-encoding the samples read from an even number of bytes encodes these
    bytes. *)
Lemma int16ToBase64_samples (binary : string) :
  Nat.even (String.length binary) = true ->
  int16ToBase64
    (samples_of_bytes (map charCodeAt (list_ascii_of_string binary)))
  = btoa binary.
Proof.
  intro He. unfold int16ToBase64.
  rewrite write_loop_bytes.
  - rewrite concat_chunks_all by lia.
    now rewrite map_fromCharCode_charCodeAt, string_of_list_ascii_of_string.
  - apply bytes_of_binary.
  - now rewrite length_map, <- string_length_list.
Qed.

Lemma decodeBase64ToInt16_samples (base64 binary : string) :
  atob base64 = Some binary ->
  decodeBase64ToInt16 base64
  = Some (samples_of_bytes (map charCodeAt (list_ascii_of_string binary))).
Proof.
  intro H. unfold decodeBase64ToInt16. rewrite H.
  rewrite string_length_list, <- (length_map charCodeAt).
  apply read_loop_samples.
Qed.

Lemma round_trip_of_encoding (binary : string) :
  Nat.even (String.length binary) = true ->
  exists samples,
    decodeBase64ToInt16 (btoa binary) = Some samples
    /\ (2 * List.length samples = String.length binary)%nat
    /\ int16ToBase64 samples = btoa binary.
Proof.
  intro He.
  exists (samples_of_bytes (map charCodeAt (list_ascii_of_string binary))).
  split; [|split].
  - apply decodeBase64ToInt16_samples. apply atob_btoa.
  - rewrite samples_of_bytes_length, length_map, <- string_length_list.
    apply Nat.even_spec in He. destruct He as [k ->].
    rewrite (Nat.mul_comm 2 k), Nat.div_mul by discriminate. lia.
  - apply int16ToBase64_samples. exact He.
Qed.

(** *** Valid base64 text is the encoding of its bytes *)

Lemma alphabet_check :
  forallb alphabet_ok (map ascii_of_nat (seq 0 256)) = true.
Proof. vm_compute. reflexivity. Qed.

Lemma b64_char_index (c : ascii) (i : Z) :
  b64_index c = Some i -> is_sextet i /\ b64_char i = c.
Proof.
  intro H.
  assert (Hok : alphabet_ok c = true).
  { eapply forallb_forall; [apply alphabet_check|].
    rewrite <- (ascii_nat_embedding c). apply in_map. apply in_seq.
    pose proof (nat_ascii_bounded c). lia. }
  unfold alphabet_ok in Hok. rewrite H in Hok.
  apply andb_prop in Hok. destruct Hok as [Hok Hc].
  apply andb_prop in Hok. destruct Hok as [H0 H1].
  apply Ascii.eqb_eq in Hc. unfold is_sextet. split; [lia | exact Hc].
Qed.

Lemma in_alphabet_index (c : ascii) :
  in_alphabet c = true ->
  is_sextet (index_of c) /\ b64_char (index_of c) = c.
Proof.
  unfold in_alphabet, index_of. intro H.
  destruct (b64_index c) as [i|] eqn:E; [|discriminate].
  now apply b64_char_index.
Qed.

Lemma list_ind4 {A : Type} (P : list A -> Prop) :
  P [] -> (forall a, P [a]) -> (forall a b, P [a; b]) ->
  (forall a b c, P [a; b; c]) ->
  (forall a b c d l, P l -> P (a :: b :: c :: d :: l)) ->
  forall l, P l.
Proof.
  intros H0 H1 H2 H3 H4. fix IH 1.
  intros [|a [|b [|c [|d l]]]];
    [apply H0 | apply H1 | apply H2 | apply H3 | apply H4; apply IH].
Qed.

Lemma valid_is_encoding (l : list ascii) :
  valid_base64_chars l = true ->
  exists bytes, Forall is_byte bytes /\ encode_bytes bytes = l.
Proof.
  induction l as [| a | a b | a b c | a b c d rest IH] using list_ind4;
    intro H; try discriminate.
  - exists []. split; [constructor | reflexivity].
  - cbn [valid_base64_chars] in H.
    apply andb_prop in H. destruct H as [H Hrest].
    apply andb_prop in H. destruct H as [Ha Hb].
    destruct (in_alphabet_index a Ha) as [Hi Ea].
    destruct (in_alphabet_index b Hb) as [Hj Eb].
    remember (index_of a) as i eqn:Ei. remember (index_of b) as j eqn:Ej.
    clear Ei Ej.
    destruct rest as [|r rest].
    + destruct (Ascii.eqb d pad_char) eqn:Ed.
      * apply Ascii.eqb_eq in Ed. subst d.
        destruct (Ascii.eqb c pad_char) eqn:Ec.
        -- apply Ascii.eqb_eq in Ec. subst c. apply Z.eqb_eq in Hrest.
           exists [i * 4 + j / 16]. split.
           ++ repeat constructor; euclid.
           ++ cbn [encode_bytes]. rewrite <- Ea. rewrite <- Eb.
              chars_eq.
        -- apply andb_prop in Hrest. destruct Hrest as [Hc Hz].
           apply Z.eqb_eq in Hz.
           destruct (in_alphabet_index c Hc) as [Hk Ec'].
           remember (index_of c) as k eqn:Ek. clear Ek.
           exists [i * 4 + j / 16; (j mod 16) * 16 + k / 4]. split.
           ++ repeat constructor; euclid.
           ++ cbn [encode_bytes].
              rewrite <- Ea. rewrite <- Eb. rewrite <- Ec'.
              chars_eq.
      * apply andb_prop in Hrest. destruct Hrest as [Hc Hd].
        destruct (in_alphabet_index c Hc) as [Hk Ec'].
        destruct (in_alphabet_index d Hd) as [Hm Ed'].
        remember (index_of c) as k eqn:Ek. remember (index_of d) as m eqn:Em.
        clear Ek Em.
        exists [i * 4 + j / 16; (j mod 16) * 16 + k / 4; (k mod 4) * 64 + m].
        split.
        -- repeat constructor; euclid.
        -- cbn [encode_bytes].
           rewrite <- Ea. rewrite <- Eb.
           rewrite <- Ec'. rewrite <- Ed'.
           chars_eq.
    + apply andb_prop in Hrest. destruct Hrest as [Hcd Hv].
      apply andb_prop in Hcd. destruct Hcd as [Hc Hd].
      destruct (in_alphabet_index c Hc) as [Hk Ec'].
      destruct (in_alphabet_index d Hd) as [Hm Ed'].
      remember (index_of c) as k eqn:Ek. remember (index_of d) as m eqn:Em.
        clear Ek Em.
      destruct (IH Hv) as (bytes & Hbytes & Hen).
      exists (i * 4 + j / 16 :: (j mod 16) * 16 + k / 4 :: (k mod 4) * 64 + m
                :: bytes).
      split.
      * repeat (constructor; [euclid|]). exact Hbytes.
      * cbn [encode_bytes]. rewrite Hen.
        rewrite <- Ea. rewrite <- Eb.
        rewrite <- Ec'. rewrite <- Ed'.
        chars_eq.
Qed.

Lemma valid_base64_btoa (base64 : string) :
  valid_base64 base64 = true -> exists binary, base64 = btoa binary.
Proof.
  unfold valid_base64. intro H.
  destruct (valid_is_encoding _ H) as (bytes & Hb & He).
  exists (string_of_list_ascii (map fromCharCode bytes)).
  unfold btoa.
  rewrite list_ascii_of_string_of_list_ascii, (map_charCodeAt_fromCharCode _ Hb).
  now rewrite He, string_of_list_ascii_of_string.
Qed.

(** C3: for every valid base64 string (RFC 4648: padded groups of four
    characters of the alphabet, unused bits zero) that encodes an even number
    of bytes, [decodeBase64ToInt16] returns half as many samples and
    [int16ToBase64] re-encodes them into the identical string. *)
Theorem base64_pcm16_round_trip (base64 binary : string) :
  valid_base64 base64 = true ->
  atob base64 = Some binary ->
  Nat.even (String.length binary) = true ->
  exists samples,
    decodeBase64ToInt16 base64 = Some samples
    /\ (2 * List.length samples = String.length binary)%nat
    /\ int16ToBase64 samples = base64.
Proof.
  intros Hv Ha He.
  destruct (valid_base64_btoa _ Hv) as [binary' ->].
  rewrite atob_btoa in Ha. injection Ha as ->.
  now apply round_trip_of_encoding.
Qed.

Lemma base64_pcm16_round_trip_witness :
  exists samples,
    decodeBase64ToInt16 "QUJDRA==" = Some samples
    /\ (2 * List.length samples = 4)%nat
    /\ int16ToBase64 samples = "QUJDRA=="%string.
Proof.
  exact (base64_pcm16_round_trip "QUJDRA==" "ABCD" eq_refl eq_refl eq_refl).
Defined.

(** Every valid base64 string is accepted by [atob]. *)
Lemma valid_base64_decodes (base64 : string) :
  valid_base64 base64 = true -> exists binary, atob base64 = Some binary.
Proof.
  intro Hv. destruct (valid_base64_btoa _ Hv) as [binary ->].
  exists binary. apply atob_btoa.
Qed.

(** C10, as stated, fails: no payload that [atob] accepts makes
    [decodeBase64ToInt16] throw.  The payload "QUJD" decodes to the three
    bytes of "ABC"; the result has one sample, the trailing byte is dropped,
    and [playGeminiAudio] schedules the buffer. *)
Lemma odd_payload_is_decoded :
  atob "QUJD" = Some "ABC"%string
  /\ decodeBase64ToInt16 "QUJD" = Some [16961]
  /\ snd (Playback.playGeminiAudio 24000 "QUJD" 0 Playback.initial)
     = [Playback.Start 0 (2 # 10)]
  /\ ~ (exists base64 binary,
           atob base64 = Some binary
           /\ Nat.odd (String.length binary) = true
           /\ decodeBase64ToInt16 base64 = None).
Proof.
  split; [reflexivity|]. split; [reflexivity|]. split; [reflexivity|].
  intros (base64 & binary & H & _ & E).
  rewrite (decodeBase64ToInt16_samples _ _ H) in E. discriminate.
Qed.

(** C10 (amended): [decodeBase64ToInt16] fails only when [atob] rejects the
    payload.  When [atob] decodes the payload to [n] bytes the result has
    [n / 2] samples (the quotient, without remainder), sample [i] being the
    little-endian signed 16-bit value of the bytes [2 i] and [2 i + 1]; for
    an odd [n] the trailing byte is dropped and nothing is thrown. *)
Theorem decodeBase64ToInt16_total_on_decoded (base64 : string) :
  (forall binary,
      atob base64 = Some binary ->
      exists samples,
        decodeBase64ToInt16 base64 = Some samples
        /\ List.length samples = Nat.div (String.length binary) 2
        /\ forall i, (i < List.length samples)%nat ->
             nth i samples 0
             = ToInt16
                 (nth (2 * i) (map charCodeAt (list_ascii_of_string binary)) 0
                  + 256 * nth (2 * i + 1)
                              (map charCodeAt (list_ascii_of_string binary)) 0))
  /\ (atob base64 = None -> decodeBase64ToInt16 base64 = None).
Proof.
  split.
  - intros binary H.
    exists (samples_of_bytes (map charCodeAt (list_ascii_of_string binary))).
    split; [|split].
    + now apply decodeBase64ToInt16_samples.
    + now rewrite samples_of_bytes_length, length_map, <- string_length_list.
    + apply samples_of_bytes_nth.
  - intro H. unfold decodeBase64ToInt16. now rewrite H.
Qed.

Lemma decodeBase64ToInt16_total_on_decoded_witness :
  exists samples,
    decodeBase64ToInt16 "QUJDREU=" = Some samples
    /\ List.length samples = 2%nat.
Proof.
  destruct (proj1 (decodeBase64ToInt16_total_on_decoded "QUJDREU=")
                  "ABCDE"%string eq_refl)
    as (samples & E & L & _).
  exists samples. split; [exact E | exact L].
Defined.

(** *** Encoding, then decoding *)

Lemma ToInt16_setInt16 (v : Z) :
  -32768 <= v <= 32767 ->
  exists lo hi,
    setInt16 v = [lo; hi] /\ is_byte lo /\ is_byte hi
    /\ ToInt16 (lo + 256 * hi) = v.
Proof.
  intro Hv. unfold setInt16, ToInt16.
  exists ((v mod 65536) mod 256), ((v mod 65536) / 256).
  split; [reflexivity|]. split; [euclid|]. split; [euclid|].
  match goal with
  | |- context [if ?c then _ else _] => destruct c eqn:E
  end; euclid.
Qed.

Lemma written_bytes (data : list Z) :
  Forall (fun v => -32768 <= v <= 32767) data ->
  Forall is_byte (flat_map setInt16 data)
  /\ samples_of_bytes (flat_map setInt16 data) = data.
Proof.
  induction 1 as [|v data Hv _ [IHb IHs]]; [split; [constructor | reflexivity]|].
  destruct (ToInt16_setInt16 v Hv) as (lo & hi & E & Hlo & Hhi & Hback).
  cbn [flat_map]. rewrite E. cbn [app samples_of_bytes].
  split.
  - repeat (constructor; [assumption|]). exact IHb.
  - now rewrite Hback, IHs.
Qed.

(** X6: every array of signed 16-bit samples encoded by [int16ToBase64] is
    decoded by [decodeBase64ToInt16] into the same samples. *)
Theorem int16_base64_round_trip (data : list Z) :
  Forall (fun v => -32768 <= v <= 32767) data ->
  decodeBase64ToInt16 (int16ToBase64 data) = Some data.
Proof.
  intro Hd. destruct (written_bytes data Hd) as [Hb Hs].
  unfold int16ToBase64. rewrite concat_chunks_all by lia.
  rewrite (decodeBase64ToInt16_samples _ _ (atob_btoa _)).
  rewrite list_ascii_of_string_of_list_ascii.
  rewrite (map_charCodeAt_fromCharCode _ Hb). now rewrite Hs.
Qed.

Lemma int16_base64_round_trip_witness :
  int16ToBase64 [8191; -16384; 32767; -32768] = "/x8AwP9/AIA="%string
  /\ decodeBase64ToInt16 "/x8AwP9/AIA=" = Some [8191; -16384; 32767; -32768].
Proof.
  split; [reflexivity|].
  apply (int16_base64_round_trip [8191; -16384; 32767; -32768]).
  repeat constructor; discriminate.
Defined.

End PcmFacts.

(** ** The resampler *)

Section ResamplerFacts.
Import Resampler.

Lemma ToInt16_id (v : Z) : int16_range v -> Pcm.ToInt16 v = v.
Proof.
  unfold int16_range, Pcm.ToInt16. intro H.
  destruct (v mod 65536 >=? 32768) eqn:E;
    Z.to_euclidean_division_equations; lia.
Qed.

(** Truncation keeps a number between two integers of opposite signs. *)
Lemma truncate_between (x : Q) (lo hi : Z) :
  lo <= 0 <= hi ->
  (inject_Z lo <= x)%Q -> (x <= inject_Z hi)%Q ->
  lo <= truncate x <= hi.
Proof.
  destruct x as [n d]. unfold truncate, Qle, inject_Z. simpl.
  intros H0 Hlo Hhi.
  pose proof (Pos2Z.is_pos d) as Hd.
  Z.to_euclidean_division_equations. nia.
Qed.

Lemma Qle_bool_false (a b : Q) : Qle_bool a b = false -> (b < a)%Q.
Proof.
  intro H. apply Qnot_le_lt. intro Hle.
  apply Qle_bool_iff in Hle. congruence.
Qed.

Lemma clamp_finite (q : Q) : max_neg1 (min_1 (Fin q)) = Fin (clamp_unit q).
Proof.
  unfold clamp_unit, min_1, max_neg1.
  destruct (Qle_bool q 1); [destruct (Qle_bool (-1) q)|]; reflexivity.
Qed.

Lemma clamp_unit_bounds (q : Q) : (-1 <= clamp_unit q <= 1)%Q.
Proof.
  unfold clamp_unit.
  destruct (Qle_bool q 1) eqn:E1; [destruct (Qle_bool (-1) q) eqn:E2|].
  - apply Qle_bool_iff in E1. apply Qle_bool_iff in E2. lra.
  - lra.
  - lra.
Qed.

Lemma clamp_unit_id (q : Q) : (-1 <= q <= 1)%Q -> clamp_unit q = q.
Proof.
  intros [H1 H2]. unfold clamp_unit.
  apply Qle_bool_iff in H1. apply Qle_bool_iff in H2.
  now rewrite H1, H2.
Qed.

(** On a finite number the quantizer truncates the scaled clamped value;
    the wrap-around of the store never applies. *)
Lemma quantize_finite (q : Q) :
  quantize (Fin q)
  = truncate (if negb (Qle_bool 0 (clamp_unit q))
              then (clamp_unit q * inject_Z 32768)%Q
              else (clamp_unit q * inject_Z 32767)%Q)
  /\ int16_range (quantize (Fin q)).
Proof.
  unfold quantize. rewrite clamp_finite. unfold lt_0, mul_const, store_int16.
  pose proof (clamp_unit_bounds q) as [Hlo Hhi].
  set (s := clamp_unit q) in *.
  assert (R : int16_range
                (truncate (if negb (Qle_bool 0 s)
                           then (s * inject_Z 32768)%Q
                           else (s * inject_Z 32767)%Q))).
  { unfold int16_range.
    destruct (Qle_bool 0 s) eqn:E; simpl.
    - apply Qle_bool_iff in E.
      assert (0 <= truncate (s * inject_Z 32767) <= 32767); [|lia].
      apply truncate_between; [lia| |].
      + change (inject_Z 0) with 0%Q. change (inject_Z 32767) with 32767%Q. nra.
      + change (inject_Z 32767) with 32767%Q. nra.
    - apply Qle_bool_false in E.
      assert (-32768 <= truncate (s * inject_Z 32768) <= 0); [|lia].
      apply truncate_between; [lia| |].
      + change (inject_Z (-32768)) with (-32768)%Q.
        change (inject_Z 32768) with 32768%Q. nra.
      + change (inject_Z 0) with 0%Q. change (inject_Z 32768) with 32768%Q. nra. }
  destruct (negb (Qle_bool 0 s)); rewrite (ToInt16_id _ R); auto.
Qed.

Lemma quantize_range (x : num) : int16_range (quantize x).
Proof.
  destruct x as [q| | |].
  - apply quantize_finite.
  - vm_compute. split; discriminate.
  - vm_compute. split; discriminate.
  - vm_compute. split; discriminate.
Qed.

(** *** The loops compute the box averages *)

Lemma skipn_nth {A : Type} (d : A) (l : list A) : forall i,
  (i < List.length l)%nat -> skipn i l = nth i l d :: skipn (S i) l.
Proof.
  induction l as [|x l IH]; intros i Hi; [simpl in Hi; lia|].
  destruct i as [|i]; [reflexivity|].
  simpl in Hi. cbn [skipn nth]. rewrite (IH i) by lia. reflexivity.
Qed.

Lemma window_empty (buffer : list num) (lo hi : Z) :
  Z.min hi (Z.of_nat (List.length buffer)) <= lo -> window buffer lo hi = [].
Proof.
  intro H. unfold window.
  replace (Z.to_nat (Z.min hi (Z.of_nat (List.length buffer)) - lo)) with O by lia.
  reflexivity.
Qed.

Lemma window_step (buffer : list num) (i next : Z) :
  0 <= i -> i < next -> i < Z.of_nat (List.length buffer) ->
  window buffer i next = sample buffer i :: window buffer (i + 1) next.
Proof.
  intros H0 Hn Hl. unfold window, sample.
  destruct (i <? 0) eqn:E; [apply Z.ltb_lt in E; lia|].
  replace (Z.to_nat (Z.min next (Z.of_nat (List.length buffer)) - i))
    with (S (Z.to_nat (Z.min next (Z.of_nat (List.length buffer)) - (i + 1))))
    by lia.
  rewrite (skipn_nth NaN buffer (Z.to_nat i)) by lia.
  replace (Z.to_nat (i + 1)) with (S (Z.to_nat i)) by lia.
  reflexivity.
Qed.

Lemma accumulate_window (buffer : list num) (next : Z) (fuel : nat) :
  forall i accum count,
    0 <= i -> (Z.to_nat (next - i) <= fuel)%nat ->
    accumulate fuel buffer next i accum count
    = (fold_left add (window buffer i next) accum,
       count + Z.of_nat (List.length (window buffer i next))).
Proof.
  induction fuel as [|fuel IH]; intros i accum count H0 Hf.
  - rewrite window_empty by lia. simpl. f_equal. lia.
  - cbn [accumulate].
    destruct ((i <? next) && (i <? Z.of_nat (List.length buffer))) eqn:E.
    + apply andb_prop in E. destruct E as [E1 E2].
      apply Z.ltb_lt in E1. apply Z.ltb_lt in E2.
      rewrite IH by lia. rewrite (window_step buffer i next) by lia.
      cbn [fold_left List.length]. f_equal. lia.
    + rewrite window_empty.
      * simpl. f_equal. lia.
      * apply andb_false_iff in E.
        destruct E as [E|E]; apply Z.ltb_ge in E; lia.
Qed.

Lemma Math_round_nonneg (x : Q) : (0 <= x)%Q -> 0 <= Math_round x.
Proof.
  intro H. unfold Math_round.
  change 0 with (Qfloor 0). apply Qfloor_resp_le. lra.
Qed.

Lemma scaled_nonneg (k : nat) (ratio : Q) :
  (0 <= ratio)%Q -> (0 <= inject_Z (Z.of_nat k) * ratio)%Q.
Proof.
  intro H. apply Qmult_le_0_compat; [|exact H].
  change 0%Q with (inject_Z 0). rewrite <- Zle_Qle. lia.
Qed.

Lemma fill_box_filter (ratio : Q) (buffer : list num) (todo : nat) :
  (0 <= ratio)%Q ->
  forall k,
    fill todo ratio buffer (Z.of_nat k)
         (Math_round (inject_Z (Z.of_nat k) * ratio))
    = map (fun j => quantize (box_average ratio buffer (Z.of_nat j)))
          (seq k todo).
Proof.
  intro Hr. induction todo as [|todo IH]; intro k; [reflexivity|].
  cbn [fill seq map].
  rewrite accumulate_window;
    [| apply Math_round_nonneg, scaled_nonneg, Hr | lia].
  replace (Z.of_nat k + 1) with (Z.of_nat (S k)) by lia.
  rewrite IH. f_equal.
  unfold box_average, average, divisor, sum.
  replace (Z.of_nat k + 1) with (Z.of_nat (S k)) by lia.
  reflexivity.
Qed.

Lemma box_filter_length ratio buffer n :
  List.length (box_filter ratio buffer n) = n.
Proof. unfold box_filter. now rewrite length_map, length_seq. Qed.


Lemma Math_round_0 (ratio : Q) : Math_round (inject_Z 0 * ratio) = 0.
Proof.
  unfold Math_round.
  assert (E : (inject_Z 0 * ratio + (1 # 2) == 1 # 2)%Q)
    by (change (inject_Z 0) with 0%Q; ring).
  rewrite E. reflexivity.
Qed.

(** *** The length of the result *)

Lemma new_length_positive_ratio (length : nat) (sampleRate target : Q) (m : nat) :
  new_length length sampleRate target = Some (S m) ->
  (0 < sampleRate / target)%Q.
Proof.
  unfold new_length.
  destruct (Qeq_bool target 0); [discriminate|].
  destruct (Qeq_bool sampleRate 0); [destruct length; discriminate|].
  set (ratio := (sampleRate / target)%Q).
  set (x := (inject_Z (Z.of_nat length) / ratio)%Q).
  destruct (Math_round x <? 0) eqn:E; [discriminate|].
  intro H. injection H as H.
  assert (Hn : 1 <= Math_round x) by lia.
  assert (Hx : (1 # 2 <= x)%Q).
  { unfold Math_round in Hn. pose proof (Qfloor_le (x + (1 # 2))) as Hf.
    rewrite Zle_Qle in Hn. change (inject_Z 1) with 1%Q in Hn. lra. }
  destruct (Qlt_le_dec 0 ratio) as [Hpos|Hneg]; [exact Hpos|].
  exfalso.
  assert (Hl : (0 <= inject_Z (Z.of_nat length))%Q).
  { change 0%Q with (inject_Z 0). rewrite <- Zle_Qle. lia. }
  destruct (Qeq_dec ratio 0) as [Hz|Hnz].
  - assert (Ex : (x == 0)%Q).
    { unfold x. rewrite Hz. unfold Qdiv. change (/ 0)%Q with 0%Q. ring. }
    lra.
  - assert (Ex : (x * ratio == inject_Z (Z.of_nat length))%Q).
    { unfold x. field. exact Hnz. }
    assert (Hr : (ratio < 0)%Q).
    { apply Qle_lteq in Hneg. destruct Hneg as [Hr|Hr]; [exact Hr|contradiction]. }
    nra.
Qed.

Lemma ratio_positive (sampleRate target : Q) :
  (0 < target)%Q -> (0 < sampleRate)%Q -> (0 < sampleRate / target)%Q.
Proof.
  intros Ht Hs. apply Qlt_shift_div_l; [exact Ht|]. lra.
Qed.

Lemma new_length_positive_rates (length : nat) (sampleRate target : Q) :
  (0 < target)%Q -> (0 < sampleRate)%Q ->
  new_length length sampleRate target
  = Some (Z.to_nat (Math_round (inject_Z (Z.of_nat length)
                                / (sampleRate / target))))
  /\ 0 <= Math_round (inject_Z (Z.of_nat length) / (sampleRate / target)).
Proof.
  intros Ht Hs. unfold new_length.
  assert (Hn : 0 <= Math_round (inject_Z (Z.of_nat length)
                                / (sampleRate / target))).
  { apply Math_round_nonneg. apply Qle_shift_div_l.
    - now apply ratio_positive.
    - assert (0 <= inject_Z (Z.of_nat length))%Q
        by (change 0%Q with (inject_Z 0); rewrite <- Zle_Qle; lia).
      lra. }
  destruct (Qeq_bool target 0) eqn:E1; [apply Qeq_bool_iff in E1; lra|].
  destruct (Qeq_bool sampleRate 0) eqn:E2; [apply Qeq_bool_iff in E2; lra|].
  destruct (Z.ltb_spec (Math_round (inject_Z (Z.of_nat length)
                                    / (sampleRate / target))) 0);
    [lia | auto].
Qed.

(** *** The result of the resampler *)

Lemma downsample_same_rate (target : Q) (buffer : list num) (sampleRate : Q) :
  Qeq_bool sampleRate target = true ->
  downsampleTo16k target buffer sampleRate = Some (map quantize buffer).
Proof. intro H. unfold downsampleTo16k. now rewrite H. Qed.

Lemma downsample_box_filter (target : Q) (buffer : list num) (sampleRate : Q)
      (out : list Z) :
  Qeq_bool sampleRate target = false ->
  downsampleTo16k target buffer sampleRate = Some out ->
  out = box_filter (sampleRate / target) buffer (List.length out).
Proof.
  intros Hne. unfold downsampleTo16k. rewrite Hne.
  destruct (new_length (List.length buffer) sampleRate target) as [[|m]|] eqn:E;
    try discriminate; intro H.
  { injection H as <-. reflexivity. }
  assert (Eo : out = fill (S m) (sampleRate / target)%Q buffer 0 0) by congruence.
  clear H. subst out.
  pose proof (new_length_positive_ratio _ _ _ _ E) as Hr.
  pose proof (fill_box_filter (sampleRate / target) buffer (S m)
                              (Qlt_le_weak _ _ Hr) O) as F.
  change (Z.of_nat 0) with 0 in F. rewrite Math_round_0 in F.
  rewrite F. unfold box_filter. now rewrite length_map, length_seq.
Qed.

Lemma downsample_total (target : Q) (buffer : list num) (sampleRate : Q) :
  (0 < target)%Q -> (0 < sampleRate)%Q ->
  exists out, downsampleTo16k target buffer sampleRate = Some out.
Proof.
  intros Ht Hs. unfold downsampleTo16k.
  destruct (Qeq_bool sampleRate target); [eauto|].
  destruct (new_length_positive_rates (List.length buffer) _ _ Ht Hs) as [-> _].
  eauto.
Qed.

Lemma downsample_range (target : Q) (buffer : list num) (sampleRate : Q)
      (out : list Z) :
  downsampleTo16k target buffer sampleRate = Some out ->
  Forall int16_range out.
Proof.
  intro H. destruct (Qeq_bool sampleRate target) eqn:E.
  - rewrite (downsample_same_rate _ _ _ E) in H. injection H as <-.
    apply Forall_forall. intros v Hv. apply in_map_iff in Hv.
    destruct Hv as (x & <- & _). apply quantize_range.
  - rewrite (downsample_box_filter _ _ _ _ E H).
    apply Forall_forall. intros v Hv. apply in_map_iff in Hv.
    destruct Hv as (x & <- & _). apply quantize_range.
Qed.







(** X7: when the capture rate equals the target rate the resampler returns
    one output per input sample, the quantized sample: clamped to [-1, 1],
    multiplied by 32768 when negative and by 32767 otherwise, truncated
    toward zero; NaN gives 0. *)
Theorem same_rate_converts_directly (T R : Q) (buffer : list num) :
  (R == T)%Q ->
  exists out,
    downsampleTo16k T buffer R = Some out
    /\ List.length out = List.length buffer
    /\ forall k, (k < List.length buffer)%nat ->
         nth k out 0 = quantize (nth k buffer NaN)
         /\ (nth k buffer NaN = NaN -> nth k out 0 = 0)
         /\ forall q, nth k buffer NaN = Fin q ->
              nth k out 0
              = truncate (if negb (Qle_bool 0 (clamp_unit q))
                          then (clamp_unit q * inject_Z 32768)%Q
                          else (clamp_unit q * inject_Z 32767)%Q).
Proof.
  intro E. apply Qeq_bool_iff in E.
  exists (map quantize buffer). split; [now apply downsample_same_rate|].
  split; [apply length_map|].
  intros k Hk.
  assert (N : nth k (map quantize buffer) 0 = quantize (nth k buffer NaN)).
  { rewrite (nth_indep _ 0 (quantize NaN)) by now rewrite length_map.
    apply map_nth. }
  split; [exact N|]. split.
  - intro Hn. rewrite N, Hn. reflexivity.
  - intros q Hq. rewrite N, Hq. apply quantize_finite.
Qed.

Lemma same_rate_converts_directly_witness :
  downsampleTo16k 16000 [Fin (1 # 4); Fin (-1 # 4); NaN; Fin 2] 16000
  = Some [8191; -8192; 0; 32767]
  /\ exists out,
       downsampleTo16k 16000 [Fin (1 # 4); Fin (-1 # 4); NaN; Fin 2] 16000
       = Some out
       /\ List.length out = 4%nat.
Proof.
  split; [reflexivity|].
  destruct (same_rate_converts_directly 16000 16000
              [Fin (1 # 4); Fin (-1 # 4); NaN; Fin 2])
    as (out & H & L & _); [reflexivity|].
  exists out. split; [exact H | exact L].
Defined.

End ResamplerFacts.

(** ** The bridge: lifecycle and protocol discipline *)

Section BridgeLifecycle.
Import Json Bridge.

(** X8: [normalizeModelName] returns a name that starts with "models/", leaves
    such a name unchanged, prefixes any other, and is idempotent. *)
Theorem normalizeModelName_canonical (model : string) :
  String.prefix "models/" (normalizeModelName model) = true
  /\ normalizeModelName (normalizeModelName model) = normalizeModelName model
  /\ (String.prefix "models/" model = true -> normalizeModelName model = model)
  /\ (String.prefix "models/" model = false ->
      normalizeModelName model = ("models/" ++ model)%string).
Proof.
  assert (P : String.prefix "models/" (normalizeModelName model) = true).
  { unfold normalizeModelName.
    destruct (String.prefix "models/" model) eqn:E; [exact E|].
    simpl. repeat (destruct (ascii_dec _ _); [|congruence]).
    now destruct model. }
  split; [exact P|]. split; [|split].
  - unfold normalizeModelName at 1. now rewrite P.
  - intro E. unfold normalizeModelName. now rewrite E.
  - intro E. unfold normalizeModelName. now rewrite E.
Qed.

Lemma normalizeModelName_canonical_witness :
  normalizeModelName "gemini-live" = "models/gemini-live"%string
  /\ normalizeModelName "models/gemini-live" = "models/gemini-live"%string.
Proof.
  split.
  - apply (proj2 (proj2 (proj2 (normalizeModelName_canonical "gemini-live")))).
    reflexivity.
  - apply (proj1 (proj2 (proj2 (normalizeModelName_canonical
                                  "models/gemini-live")))).
    reflexivity.
Defined.

(** *** One frame per client message *)

Lemma client_message_single (rs : ReadyState) (data : RawData) :
  exists a,
    on_client_message rs data = [a]
    /\ ((exists f, a = SendDown f)
        \/ (exists f, a = SendUp f /\ rs = OPEN /\ is_setup a = false))
    /\ (parseJson data = None -> a = SendDown (DError "Invalid client message.")).
Proof.
  unfold on_client_message, invalid_client_message.
  destruct (parseJson data) as [message|];
    [|eexists; split; [reflexivity|]; split; [left; eauto | reflexivity]].
  assert (D : forall f, exists a : Action,
               [SendDown f] = [a]
               /\ ((exists f', a = SendDown f')
                   \/ (exists f', a = SendUp f' /\ rs = OPEN /\ is_setup a = false))
               /\ (Some message = None ->
                   a = SendDown (DError "Invalid client message."))).
  { intro f. eexists. split; [reflexivity|].
    split; [left; eauto | discriminate]. }
  destruct (negb (truthy message)); [apply D|].
  destruct (prop message "type") as [type|]; [|apply D].
  destruct (negb (truthy type)); [apply D|].
  destruct (is_string type "ping"); [apply D|].
  destruct rs; simpl; try apply D.
  assert (U : forall f, is_setup (SendUp f) = false ->
               exists a : Action,
                 [SendUp f] = [a]
                 /\ ((exists f', a = SendDown f')
                     \/ (exists f', a = SendUp f' /\ OPEN = OPEN
                                    /\ is_setup a = false))
                 /\ (Some message = None ->
                     a = SendDown (DError "Invalid client message."))).
  { intros f Hf. eexists. split; [reflexivity|].
    split; [right; eauto | discriminate]. }
  destruct (is_string type "audio").
  { destruct (prop message "data") as [d|]; [|apply D].
    destruct (negb (truthy d)); [apply D | apply U; reflexivity]. }
  destruct (is_string type "audioStreamEnd"); [apply U; reflexivity|].
  destruct (is_string type "text"); [apply U; reflexivity | apply D].
Qed.

(** X9: in every reachable state whose downstream socket is open, a client
    message of any content (unparseable text included) is handled by exactly
    one [sendJson]: one frame sent downstream, or one frame sent upstream,
    which happens only while the upstream socket is open.  No socket is
    closed, the state is unchanged, and text that does not parse is answered
    with "Invalid client message.". *)
Theorem client_message_one_frame (cfg : Config) (evs : list Event)
        (data : RawData) :
  downstream (state_after cfg evs) = OPEN ->
  exists a,
    step cfg (state_after cfg evs) (ClientMessage data)
    = (state_after cfg evs, [a])
    /\ ((exists f, a = SendDown f)
        \/ (exists f, a = SendUp f /\ upstream (state_after cfg evs) = Some OPEN))
    /\ (parseJson data = None -> a = SendDown (DError "Invalid client message.")).
Proof.
  intro Hdn.
  destruct (state_after_paired cfg evs) as (H1 & _ & _).
  destruct (H1 Hdn) as (rs & U & _).
  destruct (client_message_single rs data) as (a & E & Hk & Hm).
  exists a. unfold step. rewrite U, Hdn. cbn [ReadyState_eqb]. rewrite E.
  split; [reflexivity|]. split; [|exact Hm].
  destruct Hk as [Hd | (f & -> & -> & _)]; [left; exact Hd|].
  right. exists f. split; reflexivity.
Qed.

Lemma client_message_one_frame_witness :
  step sample_config (state_after sample_config []) (ClientMessage Malformed)
  = (state_after sample_config [],
     [SendDown (DError "Invalid client message.")]).
Proof.
  destruct (client_message_one_frame sample_config [] Malformed eq_refl)
    as (a & E & _ & Hm).
  rewrite E. rewrite (Hm eq_refl). reflexivity.
Defined.

(** *** Closing the downstream socket *)

Lemma client_message_no_close (rs : ReadyState) (data : RawData) :
  downstream_closes (on_client_message rs data) = []
  /\ upstream_actions (on_client_message rs data)
     = upstream_frames (on_client_message rs data).
Proof.
  destruct (client_message_single rs data) as (a & -> & Hk & _).
  destruct Hk as [(f & ->) | (f & -> & _)]; split; reflexivity.
Qed.

Lemma upstream_message_no_close (data : RawData) :
  downstream_closes (on_upstream_message data) = []
  /\ upstream_actions (on_upstream_message data) = [].
Proof.
  unfold on_upstream_message.
  destruct (parseJson data) as [message|]; [|split; reflexivity].
  destruct (negb (truthy message)); [split; reflexivity|].
  destruct (hasOwnProperty message "setupComplete"); split; reflexivity.
Qed.









(** *** Tearing down the upstream socket *)

Lemma frames_then_close_nil : frames_then_close [] false.
Proof. exists [], []. repeat split. constructor. Qed.

Lemma frames_then_close_frame (ups : list Action) (f : UpFrame) :
  frames_then_close ups false -> frames_then_close (ups ++ [SendUp f]) false.
Proof.
  intros (frames & tail & -> & Hf & ->).
  exists (frames ++ [SendUp f]), []. rewrite !app_nil_r.
  split; [reflexivity|]. split; [|reflexivity].
  apply Forall_app. split; [exact Hf|]. constructor; [eauto | constructor].
Qed.

Lemma frames_then_close_close (ups : list Action) (c : Action) :
  frames_then_close ups false ->
  c = CloseUp 1000 "Client disconnected" \/ c = TerminateUp ->
  frames_then_close (ups ++ [c]) true.
Proof.
  intros (frames & tail & -> & Hf & ->) Hc.
  exists frames, [c]. rewrite app_nil_r.
  split; [reflexivity|]. split; [exact Hf|].
  destruct Hc as [-> | ->]; auto.
Qed.

Lemma closing_closed (rs : ReadyState) :
  ReadyState_eqb (closing rs) CLOSED = ReadyState_eqb rs CLOSED
  /\ (closing rs = CLOSING \/ closing rs = CLOSED).
Proof. destruct rs; simpl; auto. Qed.

Lemma step_teardown_discipline cfg st acts ev :
  teardown_discipline st acts ->
  teardown_discipline (fst (step cfg st ev)) (acts ++ snd (step cfg st ev)).
Proof.
  unfold teardown_discipline, step, upstream_actions.
  destruct st as [[rs|] dn]; cbn [upstream downstream].
  - intros [H Hc].
    destruct ev; cbn [fst snd].
    + (* upstream open *)
      destruct rs; cbn [ReadyState_eqb fst snd upstream downstream];
        rewrite ?app_nil_r; auto.
      assert (Hdn : ReadyState_eqb dn CLOSED = false).
      { destruct dn; try reflexivity.
        destruct (Hc eq_refl); discriminate. }
      rewrite Hdn in *. split.
      * rewrite filter_app. apply frames_then_close_frame. exact H.
      * intro E. rewrite E in Hdn. discriminate.
    + (* upstream message *)
      destruct (ReadyState_eqb rs OPEN || ReadyState_eqb rs CLOSING);
        cbn [fst snd upstream downstream]; rewrite ?app_nil_r; auto.
      rewrite filter_app.
      fold (upstream_actions (on_upstream_message data)).
      rewrite (proj2 (upstream_message_no_close data)), app_nil_r. auto.
    + (* upstream close *)
      destruct (ReadyState_eqb rs CLOSED);
        cbn [fst snd upstream downstream]; rewrite ?app_nil_r; auto.
      rewrite filter_app. cbn [on_upstream_close filter is_up_action].
      rewrite app_nil_r, (proj1 (closing_closed dn)). auto.
    + (* upstream error *)
      destruct (ReadyState_eqb rs CLOSED);
        cbn [fst snd upstream downstream]; rewrite ?app_nil_r; auto.
      rewrite filter_app. cbn [on_upstream_error filter is_up_action].
      rewrite app_nil_r. auto.
    + (* client message *)
      destruct (ReadyState_eqb dn CLOSED) eqn:Hdn;
        cbn [fst snd upstream downstream]; rewrite ?app_nil_r, ?Hdn; auto.
      rewrite filter_app.
      fold (upstream_actions (on_client_message rs data)).
      rewrite (proj2 (client_message_no_close rs data)).
      split; [|exact Hc].
      destruct (client_message_up_frames rs data) as [E | (_ & f & E & _)];
        rewrite E.
      * now rewrite app_nil_r.
      * now apply frames_then_close_frame.
    + (* client close *)
      destruct (ReadyState_eqb dn CLOSED) eqn:Hdn;
        cbn [fst snd upstream downstream]; rewrite ?app_nil_r, ?Hdn; auto.
      cbn [ReadyState_eqb]. rewrite filter_app. split.
      * unfold on_client_close.
        destruct (ReadyState_eqb rs OPEN); cbn [filter is_up_action];
          apply frames_then_close_close; auto.
      * intros _. apply closing_closed.
    + (* client error *)
      cbn [upstream downstream]. rewrite app_nil_r. auto.
  - intro H. destruct ev; cbn [fst snd upstream]; rewrite app_nil_r; exact H.
Qed.

Lemma connection_teardown_discipline cfg :
  teardown_discipline (fst (connection cfg)) (snd (connection cfg)).
Proof.
  unfold connection, teardown_discipline.
  destruct (negb (enableGeminiBridge cfg)); [reflexivity|].
  destruct (String.eqb (geminiApiKey cfg) EmptyString); [reflexivity|].
  cbn. split; [apply frames_then_close_nil | discriminate].
Qed.

Lemma run_from_teardown cfg evs : forall st acts,
  teardown_discipline st acts ->
  teardown_discipline (fst (run_from cfg st acts evs))
                      (snd (run_from cfg st acts evs)).
Proof.
  induction evs as [|e evs IH]; intros st acts H; simpl; [exact H|].
  pose proof (step_teardown_discipline cfg st acts e H) as H'.
  destruct (step cfg st e) as [st' out]. apply IH. exact H'.
Qed.

(** X11: what the bridge does to the upstream socket in a session is a
    sequence of frames followed by at most one close: when the client has
    disconnected, the last action is [close(1000, "Client disconnected")] or
    [terminate()], and nothing is sent upstream after it; while the client is
    connected the upstream socket is neither closed nor terminated by the
    bridge. *)
Theorem upstream_closed_last (cfg : Config) (evs : list Event) :
  exists frames tail,
    upstream_actions (trace cfg evs) = frames ++ tail
    /\ Forall (fun a => exists f, a = SendUp f) frames
    /\ (tail = [] \/ tail = [CloseUp 1000 "Client disconnected"]
        \/ tail = [TerminateUp])
    /\ (downstream (state_after cfg evs) <> CLOSED -> tail = [])
    /\ (downstream (state_after cfg evs) = CLOSED ->
        upstream (state_after cfg evs) <> None -> tail <> []).
Proof.
  assert (H : teardown_discipline (state_after cfg evs) (trace cfg evs)).
  { unfold state_after, trace, run.
    pose proof (connection_teardown_discipline cfg) as H.
    destruct (connection cfg) as [st acts].
    now apply run_from_teardown. }
  unfold teardown_discipline in H.
  destruct (upstream (state_after cfg evs)) as [rs|].
  - destruct H as [(frames & tail & E & Hf & Ht) _].
    exists frames, tail. split; [exact E|]. split; [exact Hf|].
    destruct (ReadyState_eqb (downstream (state_after cfg evs)) CLOSED) eqn:D.
    + apply ReadyState_eqb_eq in D.
      split; [tauto|]. split; [congruence|].
      intros _ _. destruct Ht as [-> | ->]; discriminate.
    + split; [auto|]. split; [auto|].
      intro D'. rewrite D' in D. discriminate.
  - exists [], []. rewrite H. split; [reflexivity|].
    split; [constructor|]. split; [auto|]. split; [auto|]. congruence.
Qed.

Lemma upstream_closed_last_example :
  upstream_actions
    (trace sample_config
           [UpstreamOpen; ClientMessage (Text audio_message); ClientClose])
  = [ SendUp (USetup (buildGeminiSetup sample_config));
      SendUp (URealtimeAudio (JStr "AAAA") (JStr "audio/pcm;rate=16000"));
      CloseUp 1000 "Client disconnected" ].
Proof. reflexivity. Qed.

End BridgeLifecycle.

(** ** From the microphone to the upstream socket *)

Section CaptureFacts.
Import Json Bridge Capture.

Lemma encoded_samples_decode (data : list Z) :
  Forall (fun v => -32768 <= v <= 32767) data ->
  Pcm.decodeBase64ToInt16 (Pcm.int16ToBase64 data) = Some data.
Proof.
  intro Hd. destruct (written_bytes data Hd) as [Hb Hs].
  unfold Pcm.int16ToBase64. rewrite concat_chunks_all by lia.
  rewrite (decodeBase64ToInt16_samples _ _ (atob_btoa _)).
  rewrite list_ascii_of_string_of_list_ascii.
  rewrite (map_charCodeAt_fromCharCode _ Hb). now rewrite Hs.
Qed.

Lemma encode_bytes_nonempty (a : Z) (l : list Z) :
  Pcm.encode_bytes (a :: l) <> [].
Proof. destruct l as [|b [|c l]]; discriminate. Qed.

Lemma int16ToBase64_empty : Pcm.int16ToBase64 [] = EmptyString.
Proof. reflexivity. Qed.

Lemma int16ToBase64_nonempty (v : Z) (data : list Z) :
  Pcm.int16ToBase64 (v :: data) <> EmptyString.
Proof.
  unfold Pcm.int16ToBase64. rewrite concat_chunks_all by lia.
  unfold Pcm.btoa. rewrite list_ascii_of_string_of_list_ascii.
  cbn [flat_map Pcm.setInt16 app map].
  match goal with
  | |- string_of_list_ascii (Pcm.encode_bytes (?a :: ?l)) <> _ =>
      pose proof (encode_bytes_nonempty a l) as H;
      destruct (Pcm.encode_bytes (a :: l)); [contradiction | discriminate]
  end.
Qed.

(** X12: the capture chain, from the worklet to the upstream socket.  For
    positive rates, a block posted by the processor while the socket is open
    and ready is resampled and sent as one [audio] frame.  An open bridge
    forwards that frame upstream with the same data and MIME type, and the
    data decodes to exactly the resampled samples; when the resampler returns
    no sample the frame carries an empty string and the bridge answers "audio
    data missing." instead.  While the socket is not open or not ready the
    handler sends nothing. *)
Theorem capture_pipeline (cfg : Config) (evs : list Event)
        (T R : Q) (rate_text : string)
        (inputs : list (list (list Resampler.num)))
        (data : Q * list Resampler.num) :
  (0 < T)%Q -> (0 < R)%Q ->
  snd (process R inputs) = Some data ->
  upstream (state_after cfg evs) = Some OPEN ->
  exists pcm16,
    Resampler.downsampleTo16k T (snd data) R = Some pcm16
    /\ worklet_onmessage true true T rate_text (Some data)
       = Sent (audio_frame rate_text (Pcm.int16ToBase64 pcm16))
    /\ (pcm16 <> [] ->
        step cfg (state_after cfg evs)
             (ClientMessage
                (Text (audio_frame rate_text (Pcm.int16ToBase64 pcm16))))
        = (state_after cfg evs,
           [SendUp (URealtimeAudio
                      (JStr (Pcm.int16ToBase64 pcm16))
                      (JStr ("audio/pcm;rate=" ++ rate_text)))])
        /\ Pcm.decodeBase64ToInt16 (Pcm.int16ToBase64 pcm16) = Some pcm16)
    /\ (pcm16 = [] ->
        step cfg (state_after cfg evs)
             (ClientMessage
                (Text (audio_frame rate_text (Pcm.int16ToBase64 pcm16))))
        = (state_after cfg evs, [SendDown (DError "audio data missing.")]))
    /\ (forall socket_open geminiReady,
           socket_open && geminiReady = false ->
           worklet_onmessage socket_open geminiReady T rate_text (Some data)
           = Ignored).
Proof.
  intros HT HR Hp U.
  assert (Hd : fst data = R).
  { unfold process in Hp.
    destruct inputs as [|[|channel input] inputs]; try discriminate.
    injection Hp as <-. reflexivity. }
  destruct data as [rate channel]. cbn [fst snd] in *. subst rate.
  destruct (downsample_total T channel R HT HR) as [pcm16 Ho].
  pose proof (downsample_range _ _ _ _ Ho) as Hrange.
  exists pcm16. split; [exact Ho|].
  destruct (state_after_paired cfg evs) as (_ & Hopen & _).
  pose proof (Hopen U) as Hdn.
  assert (Hstep : forall frame,
             step cfg (state_after cfg evs) (ClientMessage (Text frame))
             = (state_after cfg evs, on_client_message OPEN (Text frame))).
  { intro frame. unfold step. rewrite U, Hdn. reflexivity. }
  split; [|split; [|split]].
  - unfold worklet_onmessage. cbn [negb orb]. now rewrite Ho.
  - intro Hne. split; [|now apply encoded_samples_decode].
    rewrite Hstep. f_equal.
    destruct pcm16 as [|v pcm16]; [contradiction|].
    pose proof (int16ToBase64_nonempty v pcm16) as Hb.
    apply String.eqb_neq in Hb.
    remember (Pcm.int16ToBase64 (v :: pcm16)) as base64 eqn:Eb. clear Eb.
    unfold on_client_message, audio_frame. cbn. now rewrite Hb.
  - intros ->. rewrite Hstep. reflexivity.
  - intros socket_open geminiReady Hg. unfold worklet_onmessage.
    destruct socket_open, geminiReady; try reflexivity. discriminate.
Qed.

Lemma capture_pipeline_witness :
  exists pcm16,
    worklet_onmessage true true 16000 "16000"
      (Some (32000%Q, [Resampler.Fin (1 # 4); Resampler.Fin (1 # 4)]))
    = Sent (audio_frame "16000" (Pcm.int16ToBase64 pcm16))
    /\ Pcm.decodeBase64ToInt16 (Pcm.int16ToBase64 pcm16) = Some pcm16
    /\ pcm16 = [8191].
Proof.
  destruct (capture_pipeline sample_config [UpstreamOpen] 16000 32000 "16000"
              [[[Resampler.Fin (1 # 4); Resampler.Fin (1 # 4)]]]
              (32000%Q, [Resampler.Fin (1 # 4); Resampler.Fin (1 # 4)]))
    as (pcm16 & Ho & Hw & Hfwd & _); try reflexivity.
  exists pcm16.
  assert (E : pcm16 = [8191]).
  { cbn [snd] in Ho.
    assert (C : Resampler.downsampleTo16k 16000
                  [Resampler.Fin (1 # 4); Resampler.Fin (1 # 4)] 32000
                = Some [8191]) by reflexivity.
    rewrite C in Ho. now injection Ho as <-. }
  split; [exact Hw|]. split; [|exact E].
  apply Hfwd. rewrite E. discriminate.
Defined.

End CaptureFacts.

(** ** Playback: sample range, contiguity and the calls on source nodes *)

Section PlaybackMore.
Import Playback.
Local Open Scope Q_scope.

Lemma ToInt16_range (v : Z) : (-32768 <= Pcm.ToInt16 v <= 32767)%Z.
Proof.
  unfold Pcm.ToInt16.
  destruct (v mod 65536 >=? 32768)%Z eqn:E;
    Z.to_euclidean_division_equations; lia.
Qed.

Lemma samples_of_bytes_range (bytes : list Z) :
  Forall (fun v => (-32768 <= v <= 32767)%Z) (Pcm.samples_of_bytes bytes).
Proof.
  induction bytes as [| a | a b l IH] using list_ind2; try constructor.
  - apply ToInt16_range.
  - exact IH.
Qed.

Lemma decoded_samples_range (base64 : string) (pcm16 : list Z) :
  Pcm.decodeBase64ToInt16 base64 = Some pcm16 ->
  Forall (fun v => (-32768 <= v <= 32767)%Z) pcm16.
Proof.
  intro H. destruct (Pcm.atob base64) as [binary|] eqn:E.
  - rewrite (decodeBase64ToInt16_samples _ _ E) in H. injection H as <-.
    apply samples_of_bytes_range.
  - unfold Pcm.decodeBase64ToInt16 in H. rewrite E in H. discriminate.
Qed.

(** X13: whatever payload [decodeBase64ToInt16] accepts, the samples that
    [playGeminiAudio] copies into the audio buffer are as many as the decoded
    16-bit samples and every one lies in [-1, 1): -32768 becomes -1 and 32767
    becomes 32767/32768. *)
Theorem playback_samples_normalized (base64 : string) (pcm16 : list Z) :
  Pcm.decodeBase64ToInt16 base64 = Some pcm16 ->
  List.length (to_float32 pcm16) = List.length pcm16
  /\ Forall (fun x => -1 <= x /\ x < 1) (to_float32 pcm16)
  /\ forall i, (i < List.length pcm16)%nat ->
       nth i (to_float32 pcm16) 0 * 32768 == inject_Z (nth i pcm16 0%Z).
Proof.
  intro H. pose proof (decoded_samples_range _ _ H) as Hr.
  unfold to_float32. split; [apply length_map|]. split.
  - apply Forall_forall. intros x Hx. apply in_map_iff in Hx.
    destruct Hx as (v & <- & Hv). rewrite Forall_forall in Hr.
    specialize (Hr v Hv). destruct Hr as [Hlo Hhi].
    rewrite Zle_Qle in Hlo, Hhi.
    change (inject_Z (-32768)) with (-32768) in Hlo.
    change (inject_Z 32767) with 32767 in Hhi.
    change (inject_Z 32768) with 32768.
    split.
    + apply Qle_shift_div_l; lra.
    + apply Qlt_shift_div_r; lra.
  - intros i Hi.
    rewrite (nth_indep _ 0 (inject_Z 0 / inject_Z 32768))
      by now rewrite length_map.
    rewrite (map_nth (fun v => inject_Z v / inject_Z 32768)).
    change (inject_Z 32768) with 32768. field.
Qed.

Lemma playback_samples_normalized_witness :
  Pcm.decodeBase64ToInt16 "/x8AwP9/AIA=" = Some [8191; -16384; 32767; -32768]%Z
  /\ Forall (fun x => -1 <= x /\ x < 1)
            (to_float32 [8191; -16384; 32767; -32768]%Z).
Proof.
  split; [reflexivity|].
  exact (proj1 (proj2 (playback_samples_normalized
                         "/x8AwP9/AIA=" [8191; -16384; 32767; -32768]%Z
                         eq_refl))).
Defined.

Lemma Math_max_cases (a b : Q) :
  (a <= b /\ Math_max a b = b) \/ (b < a /\ Math_max a b = a).
Proof.
  unfold Math_max. destruct (Qle_bool a b) eqn:E.
  - left. apply Qle_bool_iff in E. auto.
  - right. split; [|reflexivity].
    apply Qnot_le_lt. intro Hle. apply Qle_bool_iff in Hle. congruence.
Qed.

Lemma leadIn_bounds (st : State) : 2 # 100 <= leadIn st.
Proof. unfold leadIn. destruct (geminiPlaybackPrimed st); lra. Qed.

(** X14: two buffers in a row play without a gap when the second is scheduled
    in time: if a buffer of duration [d1 >= 0] is scheduled at clock reading
    [now] and the next one at a reading [now' <= now + d1], the second starts
    exactly where the first ends. *)
Theorem consecutive_buffers_contiguous (st : State) (now d1 now' d2 : Q) :
  0 <= d1 ->
  now' <= now + d1 ->
  exists s1 s2,
    snd (schedule now d1 st) = [Start (created st) s1]
    /\ snd (schedule now' d2 (fst (schedule now d1 st)))
       = [Start (S (created st)) s2]
    /\ s2 == s1 + d1.
Proof.
  intros Hd Hn. unfold schedule. cbn [fst snd created geminiOutputTime].
  eexists. eexists. split; [reflexivity|]. split; [reflexivity|].
  unfold leadIn at 1. cbn [geminiPlaybackPrimed].
  pose proof (leadIn_bounds st) as Hl.
  destruct (Math_max_cases (now + leadIn st) (geminiOutputTime st))
    as [[H1 E1] | [H1 E1]]; rewrite E1;
    match goal with
    | |- Math_max ?a ?b == _ =>
        destruct (Math_max_cases a b) as [[H2 E2] | [H2 E2]]; rewrite E2
    end; lra.
Qed.

Lemma consecutive_buffers_contiguous_witness :
  exists s1 s2,
    snd (schedule 1 (1 # 2) initial) = [Start 0%nat s1]
    /\ snd (schedule (3 # 2) (1 # 2) (fst (schedule 1 (1 # 2) initial)))
       = [Start 1%nat s2]
    /\ s2 == s1 + (1 # 2).
Proof.
  apply (consecutive_buffers_contiguous initial 1 (1 # 2) (3 # 2) (1 # 2));
    discriminate.
Defined.

(** *** Calls on the source nodes *)

Lemma set_add_fresh (x : nat) (l : list nat) :
  ~ In x l -> set_add x l = l ++ [x].
Proof.
  intro H. unfold set_add.
  destruct (existsb (Nat.eqb x) l) eqn:E; [|reflexivity].
  apply existsb_exists in E. destruct E as (y & Hy & Exy).
  apply Nat.eqb_eq in Exy. subst y. contradiction.
Qed.

Lemma tracked_below_created (st : State) (effects : list Effect) :
  tracking_discipline st effects ->
  forall s, In s (geminiPlaying st) -> (s < created st)%nat.
Proof.
  intros (_ & Ha & Hc & _) s Hs.
  destruct (Ha s Hs) as [[t Ht] _]. exact (Hc s t Ht).
Qed.

Lemma schedule_discipline (now duration : Q) (st : State) (effects : list Effect) :
  tracking_discipline st effects /\ stops_follow_starts effects ->
  tracking_discipline (fst (schedule now duration st))
                      (effects ++ snd (schedule now duration st))
  /\ stops_follow_starts (effects ++ snd (schedule now duration st)).
Proof.
  intros [T F].
  pose proof (tracked_below_created st effects T) as Hb.
  destruct T as (Hnd & Ha & Hc & Hs).
  assert (Hfresh : ~ In (created st) (geminiPlaying st)).
  { intro H. specialize (Hb _ H). lia. }
  unfold tracking_discipline, schedule. cbn [fst snd geminiPlaying created].
  rewrite (set_add_fresh _ _ Hfresh).
  split; [split; [|split; [|split]]|].
  - apply NoDup_app; [exact Hnd | constructor; [intros [] | constructor] |].
    intros x Hx [<- | []]. contradiction.
  - intros s Hin. apply in_app_or in Hin. destruct Hin as [Hin | [<- | []]].
    + destruct (Ha s Hin) as [[t Ht] Hn]. split.
      * exists t. apply in_or_app. now left.
      * intro H. apply in_app_or in H. destruct H as [H | [H | []]];
          [contradiction | discriminate].
    + split.
      * eexists. apply in_or_app. right. left. reflexivity.
      * intro H. apply in_app_or in H. destruct H as [H | [H | []]];
          [|discriminate].
        specialize (Hs _ H). lia.
  - intros s t H. apply in_app_or in H. destruct H as [H | [H | []]].
    + specialize (Hc s t H). lia.
    + injection H as <- _. lia.
  - intros s H. apply in_app_or in H. destruct H as [H | [H | []]];
      [|discriminate].
    specialize (Hs s H). lia.
  - intros pre s post E.
    apply app_eq_app in E. destruct E as [l [[E1 E2]|[E1 E2]]].
    + destruct l as [|x l]; cbn [app] in E2; [discriminate|].
      injection E2 as <- E2. exact (F pre s l E1).
    + destruct l as [|x [|y l]]; cbn [app] in E2; discriminate.
Qed.

Lemma ensure_discipline (st : State) (effects : list Effect) :
  tracking_discipline st effects ->
  tracking_discipline (ensureAudioContext st) effects.
Proof. intro H. exact H. Qed.

Lemma step_playback_discipline (rate : Q) (st : State) (effects : list Effect)
      (ev : Event) :
  tracking_discipline st effects /\ stops_follow_starts effects ->
  tracking_discipline (fst (step rate st ev)) (effects ++ snd (step rate st ev))
  /\ stops_follow_starts (effects ++ snd (step rate st ev)).
Proof.
  intros [T F]. destruct ev as [base64 now | source | now]; cbn [step].
  - unfold playGeminiAudio.
    destruct (Pcm.decodeBase64ToInt16 base64) as [[|v pcm16]|];
      cbn [fst snd]; rewrite ?app_nil_r; try (split; [exact T | exact F]).
    apply schedule_discipline. split; [exact T | exact F].
  - cbn [fst snd]. rewrite app_nil_r. split; [|exact F].
    destruct T as (Hnd & Ha & Hc & Hs).
    unfold tracking_discipline, ended. cbn [geminiPlaying created].
    split; [|split; [|split]]; auto.
    + now apply NoDup_filter.
    + intros s H. apply filter_In in H. apply Ha. tauto.
  - pose proof (tracked_below_created st effects T) as Hb.
    destruct T as (Hnd & Ha & Hc & Hs).
    unfold tracking_discipline, stopGeminiPlayback.
    cbn [fst snd geminiPlaying created].
    split; [split; [|split; [|split]]|].
    + constructor.
    + intros s [].
    + intros s t H. apply in_app_or in H. destruct H as [H|H]; [eauto|].
      apply in_map_iff in H. destruct H as (x & Hx & _). discriminate.
    + intros s H. apply in_app_or in H. destruct H as [H|H]; [eauto|].
      apply in_map_iff in H. destruct H as (x & Hx & Hin).
      injection Hx as <-. auto.
    + intros pre s post E.
      apply app_eq_app in E. destruct E as [l [[E1 E2]|[E1 E2]]].
      * destruct l as [|x l]; cbn [app] in E2.
        -- rewrite app_nil_r in E1. subst pre.
           destruct (geminiPlaying st) as [|s' rest] eqn:Ep; [discriminate|].
           cbn [map] in E2. injection E2 as <- _.
           apply Ha. now left.
        -- injection E2 as <- E2. exact (F pre s l E1).
      * apply map_eq_app in E2.
        destruct E2 as (l1 & l2 & Ep & El1 & El2).
        destruct l2 as [|s' l2]; [discriminate|].
        cbn [map] in El2. injection El2 as -> _.
        rewrite Ep in Ha, Hnd.
        assert (Hin : In s (l1 ++ s :: l2))
          by (apply in_or_app; right; left; reflexivity).
        destruct (Ha s Hin) as [[t Ht] Hn].
        subst pre. split.
        -- exists t. apply in_or_app. now left.
        -- intro H. apply in_app_or in H. destruct H as [H|H]; [contradiction|].
           rewrite <- El1 in H. apply in_map_iff in H.
           destruct H as (x & Hx & Hx1). injection Hx as ->.
           apply NoDup_remove_2 in Hnd. apply Hnd.
           apply in_or_app. now left.
Qed.

Lemma run_from_playback_discipline (rate : Q) (evs : list Event) :
  forall st effects,
    tracking_discipline st effects /\ stops_follow_starts effects ->
    tracking_discipline (fst (run_from rate st effects evs))
                        (snd (run_from rate st effects evs))
    /\ stops_follow_starts (snd (run_from rate st effects evs)).
Proof.
  induction evs as [|e evs IH]; intros st effects H; [exact H|].
  cbn [run_from].
  pose proof (step_playback_discipline rate st effects e H) as H'.
  destruct (step rate st e) as [st' out]. apply IH. exact H'.
Qed.

(** X15: in every run of chunks, ended sources and interruptions, each
    [stop()] is called on a source node that was started before and that has
    not been stopped before: [stopGeminiPlayback] never stops a node that was
    not started, and never stops a node twice. *)
Theorem stop_only_started_sources (rate : Q) (evs : list Event) :
  forall pre s post,
    effects_after rate evs = pre ++ Stop s :: post ->
    (exists t, In (Start s t) pre) /\ ~ In (Stop s) pre.
Proof.
  unfold effects_after.
  apply (run_from_playback_discipline rate evs initial []).
  split.
  - split; [constructor|]. split; [intros s []|].
    split; [intros s t [] | intros s []].
  - intros pre s post E. destruct pre; discriminate.
Qed.

Lemma stop_only_started_sources_witness :
  effects_after 24000
    [Chunk "QUJDRA==" 1; Chunk "QUJDRA==" 1; SourceEnded 0; Interrupted 2;
     Interrupted 3]
  = [Start 0%nat (12 # 10); Start 1%nat (288020 # 240000)] ++ Stop 1%nat :: []
  /\ (exists t, In (Start 1%nat t)
                   [Start 0%nat (12 # 10); Start 1%nat (288020 # 240000)])
  /\ ~ In (Stop 1%nat) [Start 0%nat (12 # 10); Start 1%nat (288020 # 240000)].
Proof.
  split; [reflexivity|].
  apply (stop_only_started_sources 24000
           [Chunk "QUJDRA==" 1; Chunk "QUJDRA==" 1; SourceEnded 0;
            Interrupted 2; Interrupted 3]
           [Start 0%nat (12 # 10); Start 1%nat (288020 # 240000)] 1%nat []).
  reflexivity.
Defined.

End PlaybackMore.

(** ** The transcript fan-out *)

Section TranscriptFacts.
Import Transcript.

Lemma add_spec (res : nat) (clients : Clients) :
  NoDup clients ->
  NoDup (add res clients)
  /\ forall r, In r (add res clients) <-> r = res \/ In r clients.
Proof.
  intro Hnd. unfold add.
  destruct (existsb (Nat.eqb res) clients) eqn:E.
  - split; [exact Hnd|]. intro r. split; [auto|].
    intros [-> | H]; [|exact H].
    apply existsb_exists in E. destruct E as (x & Hx & Ex).
    apply Nat.eqb_eq in Ex. now subst x.
  - assert (Hn : ~ In res clients).
    { intro H. assert (T : existsb (Nat.eqb res) clients = true).
      { apply existsb_exists. exists res. split; [exact H|apply Nat.eqb_refl]. }
      congruence. }
    split.
    + apply NoDup_app; [exact Hnd | constructor; [intros [] | constructor] |].
      intros x Hx [<- | []]. contradiction.
    + intro r. rewrite in_app_iff. simpl. intuition.
Qed.

Lemma delete_spec (res : nat) (clients : Clients) :
  NoDup clients ->
  NoDup (delete res clients)
  /\ forall r, In r (delete res clients) <-> r <> res /\ In r clients.
Proof.
  intro Hnd. unfold delete. split; [now apply NoDup_filter|].
  intro r. rewrite filter_In, negb_true_iff, Nat.eqb_neq. tauto.
Qed.

Lemma clients_subscribed (res : nat) (evs : list Event) :
  forall clients open,
    NoDup clients ->
    (In res clients <-> open = true) ->
    NoDup (fold_left (fun c ev => fst (step c ev)) evs clients)
    /\ (In res (fold_left (fun c ev => fst (step c ev)) evs clients)
        <-> fold_left
              (fun open ev =>
                 match ev with
                 | EventsRequest r => if Nat.eqb r res then true else open
                 | RequestClosed r => if Nat.eqb r res then false else open
                 | Broadcast _ => open
                 end)
              evs open = true).
Proof.
  induction evs as [|ev evs IH]; intros clients open Hnd Hin; [now split|].
  cbn [fold_left]. apply IH.
  - destruct ev; cbn [step fst]; [now apply add_spec | now apply delete_spec | exact Hnd].
  - destruct ev as [r | r | e]; cbn [step fst].
    + rewrite (proj2 (add_spec r clients Hnd)).
      destruct (Nat.eqb_spec r res) as [-> | Hne]; [tauto|].
      rewrite <- Hin. split; [intros [E | H]; [congruence | exact H] | auto].
    + rewrite (proj2 (delete_spec r clients Hnd)).
      destruct (Nat.eqb_spec r res) as [-> | Hne].
      * split; [intros [H _]; congruence | discriminate].
      * rewrite <- Hin. split; [tauto | intro H; split; [congruence | exact H]].
    + exact Hin.
Qed.

Lemma events_for_count (res : nat) (event : TranscriptEvent) (clients : Clients) :
  NoDup clients ->
  List.length (filter (is_event_for res) (broadcastTranscript event clients))
  = if existsb (Nat.eqb res) clients then 1%nat else 0%nat.
Proof.
  unfold broadcastTranscript.
  induction 1 as [|c clients Hc Hnd IH]; [reflexivity|].
  cbn [map filter is_event_for existsb].
  rewrite (Nat.eqb_sym res c).
  destruct (Nat.eqb_spec c res) as [-> | Hne]; cbn [orb List.length].
  - rewrite IH.
    destruct (existsb (Nat.eqb res) clients) eqn:E; [|reflexivity].
    apply existsb_exists in E. destruct E as (x & Hx & Ex).
    apply Nat.eqb_eq in Ex. subst x. contradiction.
  - exact IH.
Qed.

(** X16: after any sequence of [/events] requests, closed requests and
    broadcasts, no response is registered twice, and a broadcast writes its
    event exactly once to every response whose stream is still open and not
    at all to any other; it leaves the set of clients unchanged. *)
Theorem broadcast_reaches_open_streams (evs : list Event)
        (event : TranscriptEvent) (res : nat) :
  NoDup (clients_after evs)
  /\ (In res (clients_after evs) <-> subscribed res evs = true)
  /\ fst (step (clients_after evs) (Broadcast event)) = clients_after evs
  /\ List.length
       (filter (is_event_for res)
               (snd (step (clients_after evs) (Broadcast event))))
     = (if subscribed res evs then 1%nat else 0%nat).
Proof.
  destruct (clients_subscribed res evs [] false) as [Hnd Hin];
    [constructor | split; [intros [] | discriminate] |].
  fold (clients_after evs) in Hnd, Hin. fold (subscribed res evs) in Hin.
  split; [exact Hnd|]. split; [exact Hin|]. split; [reflexivity|].
  cbn [step snd]. rewrite (events_for_count res event _ Hnd).
  destruct (subscribed res evs) eqn:S.
  - assert (E : existsb (Nat.eqb res) (clients_after evs) = true).
    { apply existsb_exists. exists res.
      split; [now apply Hin | apply Nat.eqb_refl]. }
    now rewrite E.
  - destruct (existsb (Nat.eqb res) (clients_after evs)) eqn:E; [|reflexivity].
    apply existsb_exists in E. destruct E as (x & Hx & Ex).
    apply Nat.eqb_eq in Ex. subst x. apply Hin in Hx. discriminate.
Qed.

Lemma broadcast_reaches_open_streams_example :
  snd (step (clients_after [EventsRequest 0; EventsRequest 1; RequestClosed 0;
                            EventsRequest 2])
            (Broadcast {| id := "e"; role := "system"; text := "hello";
                          createdAt := "now" |}))
  = [ Write 1 (EventText {| id := "e"; role := "system"; text := "hello";
                            createdAt := "now" |});
      Write 2 (EventText {| id := "e"; role := "system"; text := "hello";
                            createdAt := "now" |}) ].
Proof. reflexivity. Qed.

End TranscriptFacts.

(** ** The quantizer keeps the order of the samples *)

Section QuantizerFacts.
Import Resampler.

Lemma truncate_floor_ceiling (x : Q) :
  truncate x = if 0 <=? Qnum x then Qfloor x else Qceiling x.
Proof.
  destruct x as [n d]. unfold truncate, Qceiling, Qfloor. cbn [Qnum Qden Qopp].
  destruct (Z.leb_spec 0 n) as [H|H].
  - apply Z.quot_div_nonneg; lia.
  - rewrite <- (Z.opp_involutive n) at 1.
    rewrite Z.quot_opp_l by lia. f_equal.
    apply Z.quot_div_nonneg; lia.
Qed.

Lemma Qnum_nonneg (x : Q) : 0 <= Qnum x <-> (0 <= x)%Q.
Proof. destruct x as [n d]. unfold Qle. simpl. lia. Qed.

Lemma truncate_monotone (x y : Q) :
  (x <= y)%Q -> truncate x <= truncate y.
Proof.
  intro H. rewrite !truncate_floor_ceiling.
  destruct (Z.leb_spec 0 (Qnum x)) as [Hx|Hx];
    destruct (Z.leb_spec 0 (Qnum y)) as [Hy|Hy].
  - now apply Qfloor_resp_le.
  - exfalso. apply Qnum_nonneg in Hx.
    assert (0 <= y)%Q by lra. apply Qnum_nonneg in H0. lia.
  - assert (Hx' : (x <= 0)%Q).
    { destruct x as [n d]. unfold Qle. simpl in *. lia. }
    apply Qnum_nonneg in Hy.
    apply Qceiling_resp_le in Hx'. apply Qfloor_resp_le in Hy.
    change (Qceiling 0) with 0 in Hx'. change (Qfloor 0) with 0 in Hy. lia.
  - now apply Qceiling_resp_le.
Qed.

Lemma clamp_unit_monotone (x y : Q) :
  (x <= y)%Q -> (clamp_unit x <= clamp_unit y)%Q.
Proof.
  intro H. unfold clamp_unit.
  destruct (Qle_bool x 1) eqn:X1; destruct (Qle_bool y 1) eqn:Y1;
    destruct (Qle_bool (-1) x) eqn:X2; destruct (Qle_bool (-1) y) eqn:Y2;
    repeat match goal with
           | E : Qle_bool _ _ = true |- _ => apply Qle_bool_iff in E
           | E : Qle_bool _ _ = false |- _ => apply Qle_bool_false in E
           end; lra.
Qed.

(** X17: the conversion of a finite sample to 16 bits keeps the order: a
    larger sample never gives a smaller output, so there is no wrap-around
    inside or outside [-1, 1]. *)
Theorem quantize_monotone (x y : Q) :
  (x <= y)%Q -> quantize (Fin x) <= quantize (Fin y).
Proof.
  intro H.
  rewrite (proj1 (quantize_finite x)), (proj1 (quantize_finite y)).
  apply truncate_monotone.
  pose proof (clamp_unit_monotone x y H) as Hc.
  set (a := clamp_unit x) in *. set (b := clamp_unit y) in *.
  change (inject_Z 32768) with 32768%Q. change (inject_Z 32767) with 32767%Q.
  destruct (Qle_bool 0 a) eqn:A; destruct (Qle_bool 0 b) eqn:B; cbn [negb];
    repeat match goal with
           | E : Qle_bool _ _ = true |- _ => apply Qle_bool_iff in E
           | E : Qle_bool _ _ = false |- _ => apply Qle_bool_false in E
           end; lra.
Qed.

Lemma quantize_monotone_witness :
  quantize (Fin (-3 # 2)) <= quantize (Fin (1 # 3))
  /\ quantize (Fin (-3 # 2)) = -32768 /\ quantize (Fin (1 # 3)) = 10922.
Proof.
  split; [|split; reflexivity].
  apply (quantize_monotone (-3 # 2) (1 # 3)). discriminate.
Defined.

End QuantizerFacts.
